(** * Image and blueprint catalog resolution of multipass

    A shallow embedding of [src/daemon/ubuntu_image_host.cpp] (the manifest
    resolver), of the argument handling and the mounts of
    [src/client/cli/cmd/launch.cpp] and of the tap devices of
    [src/platform/backends/qemu/linux/qemu_platform_detail_linux.cpp],
    together with models, written from the specification, of the blueprint
    provider and of the TTL-gated catalog cache, whose code is not among the
    sources; [tests/test_blueprint_provider.cpp] supplies their examples. *)

From Stdlib Require Import ZArith String Ascii List Bool Lia.
From Stdlib Require HexadecimalString.
From stdpp Require Import base gmap strings list.

Local Open Scope string_scope.
Local Open Scope list_scope.

(** ** Exceptions

    C++ exceptions are modelled by one inductive type; a constructor per
    exception class that the embedded code throws or catches. *)
Inductive Exception : Type :=
| UnsupportedRemoteException (what : string)
| UnsupportedImageException (release : string)
| EmptyManifestException (what : string)
| GenericManifestException (what : string)
| DownloadException (url cause : string)
| PocoException (what : string)
| runtime_error (what : string)
| out_of_range (what : string)
| InvalidBlueprintException (what : string)
| IncompatibleBlueprintException (what : string)
| BlueprintMinimumException (field : string) (supplied minimum : Z).

(** ** A state-and-exception monad

    A member function that may throw and may mutate [*this] is a function
    from the object's state to an outcome and the state it leaves behind
    (mutations made before a [throw] persist). *)
Definition M (S A : Type) : Type := S -> (Exception + A) * S.

Definition ret {S A : Type} (a : A) : M S A := fun s => (inr a, s).

Definition throw {S A : Type} (e : Exception) : M S A := fun s => (inl e, s).

Definition bind {S A B : Type} (m : M S A) (k : A -> M S B) : M S B :=
  fun s => match m s with
           | (inl e, s') => (inl e, s')
           | (inr a, s') => k a s'
           end.

(** A [const] member function: it may throw but leaves the state alone. *)
Definition lift {S A : Type} (r : Exception + A) : M S A := fun s => (r, s).

Notation "x <- m ;; k" := (bind m (fun x => k))
  (at level 100, m at next level, right associativity).
Notation "m ;;; k" := (bind m (fun _ => k))
  (at level 100, right associativity).

(** The double quote character, for the messages that quote a name. *)
Definition dquote : string := String (ascii_of_nat 34) EmptyString.

Definition quoted (s : string) : string := dquote +:+ s +:+ dquote.

(** ** The manifest resolver: [UbuntuVMImageHost] *)
Module ImageHost.

(** Modelled from the spec: [mp::VMImageInfo], whose declaration is not
    among the sources; field for field as [with_location_fully_resolved]
    lists them ([release_name] is its field [release], a name that [Query]
    takes here). *)
Record VMImageInfo : Type := mkVMImageInfo {
  aliases : list string;
  os : string;
  release_name : string;
  release_title : string;
  supported : bool;
  image_location : string;
  kernel_location : string;
  initrd_location : string;
  id : string;
  stream_location : string;
  version : string;
  size : Z;
  verify : bool
}.

(** Modelled from the spec: [mp::SimpleStreamsManifest], whose declaration
    is not among the sources: the products in manifest order and the alias
    index [image_records] (a map from alias to a product), as the resolver
    reads them. *)
Record SimpleStreamsManifest : Type := mkManifest {
  products : list VMImageInfo;
  image_records : gmap string VMImageInfo
}.

(** Modelled from the spec: [mp::Query], whose declaration is not among the
    sources; the fields the resolver reads. *)
Record Query : Type := mkQuery {
  release : string;
  remote_name : string;
  allow_unsupported : bool
}.

(** Modelled from the spec: the constants [release_remote] and
    [daily_remote], declared outside the sources; the default search order is
    first [release], then [daily]. *)
Definition release_remote : string := "release".
Definition daily_remote : string := "daily".

Definition with_location_fully_resolved (host_url : string) (info : VMImageInfo) : VMImageInfo :=
  {| aliases := aliases info;
     os := os info;
     release_name := release_name info;
     release_title := release_title info;
     supported := supported info;
     image_location := host_url +:+ image_location info;
     kernel_location := host_url +:+ kernel_location info;
     initrd_location := host_url +:+ initrd_location info;
     id := id info;
     stream_location := stream_location info;
     version := version info;
     size := size info;
     verify := verify info |}.

Definition key_from (search_string : string) : string :=
  if String.eqb search_string "" then "default" else search_string.

Definition match_alias (key : string) (manifest : SimpleStreamsManifest) : option VMImageInfo :=
  image_records manifest !! key.

(** [std::find_if] over a vector of pairs, on the first component. *)
Definition find_remote {A : Type} (name : string) (l : list (string * A)) : option (string * A) :=
  find (fun element => String.eqb (fst element) name) l.

(** The mutable state of the host: the cached [manifests], in the order
    [fetch_manifests] stored them, and [world], whatever else the host depends
    on and may change while it refreshes (the clock, the network, the private
    state of the [CommonVMImageHost] base class). *)
Record Host (World : Type) : Type := mkHost {
  manifests : list (string * SimpleStreamsManifest);
  world : World
}.
Arguments mkHost {World} _ _.
Arguments manifests {World} _.
Arguments world {World} _.

Section UbuntuVMImageHost.

Context {World : Type}.

(** The constructor's [remotes]: pairs of a remote's name and its base URL. *)
Variable remotes : list (string * string).

(** Members of the base class [CommonVMImageHost], whose code is not among
    the sources: the platform checks (const, may throw) and the TTL-gated
    refresh (may throw, may replace the manifests). *)
Variable check_alias_is_supported : string -> string -> Exception + unit.
Variable check_remote_is_supported : string -> Exception + unit.
Variable check_all_aliases_are_supported : list string -> string -> bool.
Variable update_manifests : M (Host World) unit.

Definition remote_url_from (remote_name : string) : string :=
  match find_remote remote_name remotes with
  | Some element => snd element
  | None => ""
  end.

Definition manifest_from (remote : string) : M (Host World) SimpleStreamsManifest :=
  lift (check_remote_is_supported remote) ;;;
  update_manifests ;;;
  fun h =>
    match find_remote remote (manifests h) with
    | None =>
        (inl (runtime_error ("Remote " +:+ quoted remote +:+ " is unknown or unreachable.")),
         h)
    | Some element => (inr (snd element), h)
    end.

(** The hash-prefix scan of one manifest: the inner [for] loop of
    [all_info_for], with its [found_hashes] set and the [images] vector as
    accumulators. *)
Fixpoint scan_products (query : Query) (key remote_name : string)
    (entries : list VMImageInfo) (found_hashes : gset string)
    (images : list (string * VMImageInfo)) : list (string * VMImageInfo) :=
  match entries with
  | [] => images
  | entry :: rest =>
      if String.prefix key (id entry)
         && (supported entry || allow_unsupported query)
         && bool_decide (id entry ∉ found_hashes)
      then scan_products query key remote_name rest ({[id entry]} ∪ found_hashes)
             (images ++ [(remote_name,
                          with_location_fully_resolved (remote_url_from remote_name) entry)])
      else scan_products query key remote_name rest found_hashes images
  end.

(** The outer [for] loop of [all_info_for] over [remotes_to_search]. *)
Fixpoint search_remotes (query : Query) (key : string) (remotes_to_search : list string)
    (images : list (string * VMImageInfo)) : M (Host World) (list (string * VMImageInfo)) :=
  match remotes_to_search with
  | [] => ret images
  | remote_name :: rest =>
      fun h =>
        match manifest_from remote_name h with
        | (inl (UnsupportedRemoteException what), h') =>
            if String.eqb (ImageHost.remote_name query) ""
            then search_remotes query key rest images h'
            else (inl (UnsupportedRemoteException what), h')
        | (inl e, h') => (inl e, h')
        | (inr manifest, h') =>
            match match_alias key manifest with
            | Some info =>
                if negb (supported info) && negb (allow_unsupported query)
                then (inl (UnsupportedImageException (release query)), h')
                else search_remotes query key rest
                       (images
                        ++ [(remote_name,
                             with_location_fully_resolved (remote_url_from remote_name) info)])
                       h'
            | None =>
                search_remotes query key rest
                  (scan_products query key remote_name (products manifest) ∅ images) h'
            end
        end
  end.

Definition remotes_to_search (query : Query) : list string :=
  if negb (String.eqb (remote_name query) "")
  then [remote_name query]
  else [release_remote; daily_remote].

Definition all_info_for (query : Query) : M (Host World) (list (string * VMImageInfo)) :=
  let key := key_from (release query) in
  lift (check_alias_is_supported key (remote_name query)) ;;;
  search_remotes query key (remotes_to_search query) [].

Definition too_many_images (query : Query) : Exception :=
  runtime_error ("Too many images matching " +:+ quoted (release query)).

Definition info_for (query : Query) : M (Host World) (option VMImageInfo) :=
  images <- all_info_for query ;;
  match images with
  | [] => ret None
  | front :: _ =>
      let key := key_from (release query) in
      let image_id := id (snd front) in
      if (1 <? length images)%nat && negb (String.eqb key image_id) && String.prefix key image_id
      then throw (too_many_images query)
      else ret (Some (snd front))
  end.

(** The nested loops of [info_for_full_hash_impl]: first product, in manifest
    order, whose id is [full_hash]. *)
Fixpoint find_full_hash (full_hash : string)
    (manifests : list (string * SimpleStreamsManifest)) : option VMImageInfo :=
  match manifests with
  | [] => None
  | manifest :: rest =>
      match find (fun product => String.eqb (id product) full_hash) (products (snd manifest)) with
      | Some product =>
          Some (with_location_fully_resolved (remote_url_from (fst manifest)) product)
      | None => find_full_hash full_hash rest
      end
  end.

Definition info_for_full_hash_impl (full_hash : string) : M (Host World) VMImageInfo :=
  fun h =>
    match find_full_hash full_hash (manifests h) with
    | Some info => (inr info, h)
    | None =>
        (inl (runtime_error ("Unable to find an image matching hash " +:+ quoted full_hash)), h)
    end.

Definition all_images_for (remote_name : string) (allow_unsupported : bool)
  : M (Host World) (list VMImageInfo) :=
  manifest <- manifest_from remote_name ;;
  let images :=
    map (with_location_fully_resolved (remote_url_from remote_name))
      (filter (fun entry =>
                 (supported entry || allow_unsupported)
                 && check_all_aliases_are_supported (aliases entry) remote_name = true)
         (products manifest)) in
  match images with
  | [] => throw (runtime_error ("Unable to find images for remote " +:+ quoted remote_name))
  | _ => ret images
  end.

(** *** Fetching and listing the manifests *)

(** [mp::SimpleStreamsIndex] (declared outside the sources), the field that
    [download_manifest] reads. *)
Record SimpleStreamsIndex : Type := mkIndex {
  manifest_path : string
}.

(** The downloader and the two JSON readers, whose code is not among the
    sources: what [url_downloader->download] yields for a URL (it uses the
    network, so it runs on [world]), and what [fromJson] makes of the bytes. *)
Variable download : string -> M World string.
Variable index_from_json : string -> Exception + SimpleStreamsIndex.
Variable manifest_from_json : string -> string -> Exception + SimpleStreamsManifest.

(** The two reports of the base class [CommonVMImageHost], whose code is not
    among the sources. *)
Variable on_manifest_empty : string -> M (Host World) unit.
Variable on_manifest_update_failure : string -> M (Host World) unit.

(** A computation on the world, run inside the host. *)
Definition in_world {A : Type} (m : M World A) : M (Host World) A :=
  fun h =>
    match m (world h) with
    | (outcome, w) => (outcome, {| manifests := manifests h; world := w |})
    end.

Definition index_path : string := "streams/v1/index.json".

Definition download_manifest (host_url : string) : M World SimpleStreamsManifest :=
  json_index <- download (host_url +:+ index_path) ;;
  index <- lift (index_from_json json_index) ;;
  json_manifest <- download (host_url +:+ manifest_path index) ;;
  lift (manifest_from_json json_manifest host_url).

(** [manifests.emplace_back]. *)
Definition emplace_back (remote : string) (manifest : SimpleStreamsManifest)
  : M (Host World) unit :=
  fun h => (inr tt, {| manifests := manifests h ++ [(remote, manifest)]; world := world h |}).

(** [e.what()] for the two exceptions whose message [fetch_manifests]
    reports; a [DownloadException] reads as the tests of the blueprint
    provider expect it in the log. *)
Definition what_of (e : Exception) : string :=
  match e with
  | GenericManifestException what => what
  | DownloadException from cause =>
      "failed to download from '" +:+ from +:+ "': " +:+ cause
  | _ => ""
  end.

(** The body of the loop of [fetch_manifests] for one remote: the [try]
    block and its four handlers. *)
Definition fetch_manifest (remote : string * string) : M (Host World) unit :=
  fun h =>
    match (lift (check_remote_is_supported (fst remote)) ;;;
           manifest <- in_world (download_manifest (snd remote)) ;;
           emplace_back (fst remote) manifest) h with
    | (inl (EmptyManifestException _), h') =>
        on_manifest_empty
          ("Did not find any supported products in " +:+ quoted (fst remote)) h'
    | (inl (GenericManifestException what), h') =>
        on_manifest_update_failure (what_of (GenericManifestException what)) h'
    | (inl (DownloadException from cause), h') =>
        on_manifest_update_failure (what_of (DownloadException from cause)) h'
    | (inl (UnsupportedRemoteException _), h') => (inr tt, h')
    | (outcome, h') => (outcome, h')
    end.

(** The loop of [fetch_manifests] over the remotes. *)
Fixpoint fetch_each (rs : list (string * string)) : M (Host World) unit :=
  match rs with
  | [] => ret tt
  | remote :: rest => fetch_manifest remote ;;; fetch_each rest
  end.

Definition fetch_manifests : M (Host World) unit := fetch_each remotes.

Definition clear : M (Host World) unit :=
  fun h => (inr tt, {| manifests := []; world := world h |}).

Definition supported_remotes : list string := map fst remotes.

(** The inner loop of [for_each_entry_do_impl] over the products of one
    manifest.  The action is the caller's; it runs on a state of its own and
    may throw, which ends the loops. *)
Fixpoint for_each_product {S : Type} (action : string -> VMImageInfo -> M S unit)
    (remote : string) (entries : list VMImageInfo) : M S unit :=
  match entries with
  | [] => ret tt
  | product :: rest =>
      (if check_all_aliases_are_supported (aliases product) remote
       then action remote (with_location_fully_resolved (remote_url_from remote) product)
       else ret tt) ;;;
      for_each_product action remote rest
  end.

(** The outer loop of [for_each_entry_do_impl] over the manifests. *)
Fixpoint for_each_manifest {S : Type} (action : string -> VMImageInfo -> M S unit)
    (ms : list (string * SimpleStreamsManifest)) : M S unit :=
  match ms with
  | [] => ret tt
  | manifest :: rest =>
      for_each_product action (fst manifest) (products (snd manifest)) ;;;
      for_each_manifest action rest
  end.

Definition for_each_entry_do_impl {S : Type} (action : string -> VMImageInfo -> M S unit)
    (h : Host World) : M S unit :=
  for_each_manifest action (manifests h).

(** *** Vocabulary of the resolver's specification *)

(** A product qualifies for the hash-prefix scan. *)
Definition hash_match (query : Query) (key : string) (entry : VMImageInfo) : bool :=
  String.prefix key (id entry) && (supported entry || allow_unsupported query).

(** [searched query key rs h ms h']: run from state [h], the loop over the
    remotes [rs] obtains the manifests [ms], in order, none of which answers
    [key] as an alias (an unsupported remote is skipped when the query pins
    none), and leaves the host in state [h']. *)
Inductive searched (query : Query) (key : string)
  : list string -> Host World -> list (string * SimpleStreamsManifest) -> Host World -> Prop :=
| searched_nil h : searched query key [] h [] h
| searched_scan remote rest h h1 manifest ms h' :
    manifest_from remote h = (inr manifest, h1) ->
    match_alias key manifest = None ->
    searched query key rest h1 ms h' ->
    searched query key (remote :: rest) h ((remote, manifest) :: ms) h'
| searched_skip remote rest h h1 what ms h' :
    manifest_from remote h = (inl (UnsupportedRemoteException what), h1) ->
    remote_name query = "" ->
    searched query key rest h1 ms h' ->
    searched query key (remote :: rest) h ms h'.

(** [visited rs h remote manifest]: run from state [h], the loop over the
    remotes [rs] reaches [remote], and [manifest_from] then returns
    [manifest]. *)
Inductive visited : list string -> Host World -> string -> SimpleStreamsManifest -> Prop :=
| visited_here remote rest h manifest h1 :
    manifest_from remote h = (inr manifest, h1) ->
    visited (remote :: rest) h remote manifest
| visited_later earlier rest h outcome h1 remote manifest :
    manifest_from earlier h = (outcome, h1) ->
    visited rest h1 remote manifest ->
    visited (earlier :: rest) h remote manifest.

(** [stored] is a record that the manifest obtained for [remote], when the
    loop over [rs] run from [h] reaches it, holds for [key]: its alias match,
    or a product whose id starts with [key]. *)
Definition served (key : string) (rs : list string) (h : Host World)
    (remote : string) (stored : VMImageInfo) : Prop :=
  exists manifest,
    visited rs h remote manifest /\
    (match_alias key manifest = Some stored \/
     (stored ∈ products manifest /\ String.prefix key (id stored) = true)).

(** [url] is the base URL configured for [remote]: that of the first entry
    of [remotes] with this name. *)
Definition base_url (remote url : string) : Prop :=
  exists before after,
    remotes = before ++ (remote, url) :: after /\ remote ∉ map fst before.

(** Every manifest the host holds is the manifest of a configured remote, as
    [fetch_manifests] leaves them. *)
Definition known_remotes (h : Host World) : Prop :=
  Forall (fun rm => fst rm ∈ supported_remotes) (manifests h).

(** [info] is [stored] with its three locations prefixed, once, by the base
    URL configured for [remote], and nothing else changed. *)
Definition resolved_once (remote : string) (stored info : VMImageInfo) : Prop :=
  exists url,
    base_url remote url /\
    image_location info = url +:+ image_location stored /\
    kernel_location info = url +:+ kernel_location stored /\
    initrd_location info = url +:+ initrd_location stored /\
    String.prefix url (image_location info) = true /\
    String.prefix url (kernel_location info) = true /\
    String.prefix url (initrd_location info) = true /\
    (aliases info, os info, release_name info, release_title info, supported info)
    = (aliases stored, os stored, release_name stored, release_title stored,
       supported stored) /\
    (id info, stream_location info, version info, size info, verify info)
    = (id stored, stream_location stored, version stored, size stored, verify stored).

(** [contributes query key remote h block h1]: the body of the loop of
    [all_info_for], run for [remote] from state [h], goes on to the next
    remote in state [h1] after it added [block] to the matches: the alias
    match of the manifest of [remote], or else the products its hash-prefix
    scan finds, or nothing for a remote that the platform does not support
    when the query pins none. *)
Inductive contributes (query : Query) (key remote : string) (h : Host World)
  : list (string * VMImageInfo) -> Host World -> Prop :=
| contributes_alias manifest h1 info :
    manifest_from remote h = (inr manifest, h1) ->
    match_alias key manifest = Some info ->
    supported info || allow_unsupported query = true ->
    contributes query key remote h
      [(remote, with_location_fully_resolved (remote_url_from remote) info)] h1
| contributes_scan manifest h1 :
    manifest_from remote h = (inr manifest, h1) ->
    match_alias key manifest = None ->
    contributes query key remote h
      (scan_products query key remote (products manifest) ∅ []) h1
| contributes_skip what h1 :
    manifest_from remote h = (inl (UnsupportedRemoteException what), h1) ->
    remote_name query = "" ->
    contributes query key remote h [] h1.

End UbuntuVMImageHost.

(** The action of a caller of [for_each_entry_do_impl], run on a list of
    visits (remote and record) one after another; a throw ends the run. *)
Fixpoint visit_all {S : Type} (action : string -> VMImageInfo -> M S unit)
    (visits : list (string * VMImageInfo)) : M S unit :=
  match visits with
  | [] => ret tt
  | visit :: rest => action (fst visit) (snd visit) ;;; visit_all action rest
  end.

End ImageHost.

(** ** Sample hosts for the resolver *)
Module ImageHostExamples.
Import ImageHost.

Definition sample_image (names : list string) (hash : string) (is_supported : bool)
    (directory : string) : VMImageInfo :=
  {| aliases := names; os := "Ubuntu"; release_name := "sample"; release_title := "Sample";
     supported := is_supported;
     image_location := directory +:+ "/disk.img";
     kernel_location := directory +:+ "/vmlinuz";
     initrd_location := directory +:+ "/initrd.img";
     id := hash; stream_location := ""; version := "20220101"; size := 1024;
     verify := true |}.

Definition index_of (images : list VMImageInfo) : gmap string VMImageInfo :=
  foldr (fun info index => foldr (fun name index => <[name := info]> index) index (aliases info))
        ∅ images.

Definition sample_manifest (images : list VMImageInfo) : SimpleStreamsManifest :=
  {| products := images; image_records := index_of images |}.

Definition sample_remotes : list (string * string) :=
  [("release", "https://cloud-images.example/releases/");
   ("daily", "https://cloud-images.example/daily/")].

(** Every alias and every remote is supported, and the cache is fresh. *)
Definition any_alias (alias remote : string) : Exception + unit := inr tt.
Definition any_remote (remote : string) : Exception + unit := inr tt.
Definition all_aliases (names : list string) (remote : string) : bool := true.
Definition fresh : M (Host unit) unit := ret tt.

(** A platform that does not support the release remote. *)
Definition no_release (remote : string) : Exception + unit :=
  if String.eqb remote "release" then inl (UnsupportedRemoteException remote) else inr tt.

(** The release remote answers [ab] as an alias of an image whose id is
    [ffff]; the daily remote has no such alias but two images whose ids start
    with [ab]. *)
Definition release_ab : VMImageInfo := sample_image ["ab"] "ffff" true "ab/current".
Definition daily_ab11 : VMImageInfo := sample_image ["jammy"] "ab11" true "jammy/current".
Definition daily_ab22 : VMImageInfo := sample_image ["kinetic"] "ab22" true "kinetic/current".

Definition alias_then_hashes : Host unit :=
  {| manifests := [("release", sample_manifest [release_ab]);
                   ("daily", sample_manifest [daily_ab11; daily_ab22])];
     world := tt |}.

(** Both remotes hold images whose ids start with [ab]; neither has an alias
    [ab]. *)
Definition hashes_only : Host unit :=
  {| manifests := [("release", sample_manifest [daily_ab11]);
                   ("daily", sample_manifest [daily_ab22])];
     world := tt |}.

Definition query_ab : Query := {| release := "ab"; remote_name := ""; allow_unsupported := false |}.
Definition query_jammy : Query :=
  {| release := "jammy"; remote_name := ""; allow_unsupported := false |}.
Definition query_daily_ab : Query :=
  {| release := "ab"; remote_name := "daily"; allow_unsupported := false |}.
Definition query_release_ab : Query :=
  {| release := "ab"; remote_name := "release"; allow_unsupported := false |}.

Definition resolved (remote : string) (info : VMImageInfo) : VMImageInfo :=
  with_location_fully_resolved (remote_url_from sample_remotes remote) info.

End ImageHostExamples.

(** ** The catalog cache *)
Module CatalogCache.

(** Modelled from the spec: the TTL-gated fetch-or-reuse cache
    ([CommonVMImageHost::update_manifests] and
    [DefaultVMBlueprintProvider::update_blueprints] are not among the
    sources).  An entry is the data last fetched for a key and the time of
    that fetch. *)
Record Entry (Data : Type) : Type := mkEntry {
  data : Data;
  last_fetch_timestamp : Z
}.
Arguments mkEntry {Data} _ _.
Arguments data {Data} _.
Arguments last_fetch_timestamp {Data} _.

(** Modelled from the spec: the cache of a catalog, keyed by catalog
    identity, with the TTL configured at construction.  [fetches] records
    every network fetch made (key and time), as the fetch-call counter of the
    tests does; [log] is the side channel failures are reported on. *)
Record Cache (Data : Type) : Type := mkCache {
  ttl : Z;
  entries : gmap string (Entry Data);
  fetches : list (string * Z);
  log : list string
}.
Arguments mkCache {Data} _ _ _ _.
Arguments ttl {Data} _.
Arguments entries {Data} _.
Arguments fetches {Data} _.
Arguments log {Data} _.

Section Cache.

Context {Data : Type}.

(** The network: what fetching [key] at time [now] yields. *)
Variable fetch : string -> Z -> Exception + Data.
(** The failures that are logged and swallowed (transport failures), and the
    log message of each. *)
Variable recoverable : Exception -> bool.
Variable report : Exception -> string.

(** Modelled from the spec: a new cache holds no entry. *)
Definition empty (time_to_live : Z) : Cache Data :=
  {| ttl := time_to_live; entries := ∅; fetches := []; log := [] |}.

(** Modelled from the spec: an entry is refreshed when
    [now - last_fetch_timestamp >= ttl]. *)
Definition expired (cache : Cache Data) (entry : Entry Data) (now : Z) : bool :=
  (ttl cache <=? now - last_fetch_timestamp entry)%Z.

(** Modelled from the spec: one network fetch for [key].  On success the
    entry is stored or replaced; a recoverable failure is logged and leaves
    the entries as they were; any other failure propagates. *)
Definition refetch (key : string) (now : Z) : M (Cache Data) unit :=
  fun cache =>
    match fetch key now with
    | inr fetched =>
        (inr tt,
         {| ttl := ttl cache;
            entries := <[key := mkEntry fetched now]> (entries cache);
            fetches := fetches cache ++ [(key, now)];
            log := log cache |})
    | inl e =>
        if recoverable e
        then (inr tt,
              {| ttl := ttl cache; entries := entries cache;
                 fetches := fetches cache ++ [(key, now)];
                 log := log cache ++ [report e] |})
        else (inl e,
              {| ttl := ttl cache; entries := entries cache;
                 fetches := fetches cache ++ [(key, now)];
                 log := log cache |})
    end.

(** Modelled from the spec: a refresh request.  No entry: fetch; an entry
    older than the TTL: refetch; otherwise nothing. *)
Definition refresh (key : string) (now : Z) : M (Cache Data) unit :=
  fun cache =>
    match entries cache !! key with
    | None => refetch key now cache
    | Some entry => if expired cache entry now then refetch key now cache else (inr tt, cache)
    end.

(** Modelled from the spec: [ensure_fresh] refreshes and serves what the
    cache then holds for [key], stale or not; nothing when no fetch ever
    succeeded. *)
Definition ensure_fresh (key : string) (now : Z) : M (Cache Data) (option Data) :=
  refresh key now ;;;
  fun cache => (inr (data <$> entries cache !! key), cache).

(** Modelled from the spec: the number of network fetches made for [key],
    the fetch-call counter of the tests. *)
Definition fetch_count (key : string) (cache : Cache Data) : nat :=
  length (filter (fun request => fst request = key) (fetches cache)).

(** Modelled from the spec: refresh requests one after another, each for a
    key at a time; a failure that propagates ends them. *)
Fixpoint refresh_all (requests : list (string * Z)) : M (Cache Data) unit :=
  match requests with
  | [] => ret tt
  | request :: rest => refresh (fst request) (snd request) ;;; refresh_all rest
  end.

End Cache.

End CatalogCache.

(** ** The blueprint provider *)
Module Blueprint.
Import CatalogCache.

(** Modelled from the spec: a key of a blueprint document as the provider
    reads it: absent, present with a value of the expected type, or present
    but failing type coercion. *)
Inductive Node (A : Type) : Type :=
| Missing
| Scalar (value : A)
| Malformed.
Arguments Missing {A}.
Arguments Scalar {A} _.
Arguments Malformed {A}.

(** Modelled from the spec: a structured (YAML) document, for the
    cloud-init payload: null, or a document known by the text it is emitted
    as. *)
Inductive Yaml : Type :=
| Null
| Emitted (text : string).

(** Modelled from the spec: one blueprint document, as
    [DefaultVMBlueprintProvider] (not among the sources) reads it.  Sizes are
    in bytes. *)
Record Document : Type := mkDocument {
  description : Node string;
  version : Node string;
  runs_on : Node (list string);
  min_cpu : Node Z;
  min_mem : Node Z;
  min_disk : Node Z;
  image : Node string;
  cloud_init : Node Yaml;
  timeout : Node Z
}.

(** Modelled from the spec: the fields of [mp::VirtualMachineDescription]
    (declared outside the sources) that the provider reads and writes; the
    tests build a description whose values are unset as [{0, {}, {}, ...}]:
    zero cores, zero bytes, a null document. *)
Record VirtualMachineDescription : Type := mkDescription {
  num_cores : Z;
  mem_size : Z;
  disk_space : Z;
  vendor_data_config : Yaml
}.

(** Modelled from the spec: what [info_for] returns about a blueprint, the
    fields the tests read. *)
Record BlueprintInfo : Type := mkInfo {
  info_aliases : list string;
  info_release_title : string;
  info_version : string
}.

(** Modelled from the spec: the two messages of a validation failure, as
    the tests expect them. *)
Definition missing_key (key name : string) : Exception :=
  InvalidBlueprintException
    ("The '" +:+ key +:+ "' key is required for the " +:+ name +:+ " Blueprint").

Definition bad_conversion (key name : string) : Exception :=
  InvalidBlueprintException
    ("Cannot convert '" +:+ key +:+ "' key for the " +:+ name +:+ " Blueprint").

(** Modelled from the spec: validation, by [DefaultVMBlueprintProvider]
    (not among the sources), of the document called [name]: the required
    keys [description] and [version] must be present and convert, and so must
    the allow-list when there is one. *)
Definition validate (name : string) (document : Document) : Exception + (string * string) :=
  match description document, version document with
  | Missing, _ => inl (missing_key "description" name)
  | _, Missing => inl (missing_key "version" name)
  | Malformed, _ => inl (bad_conversion "description" name)
  | _, Malformed => inl (bad_conversion "version" name)
  | Scalar title, Scalar number =>
      match runs_on document with
      | Malformed => inl (bad_conversion "runs-on" name)
      | _ => inr (title, number)
      end
  end.

(** Modelled from the spec: an allow-list excludes the architecture. *)
Definition incompatible (arch : string) (document : Document) : bool :=
  match runs_on document with
  | Scalar allowed => negb (existsb (String.eqb arch) allowed)
  | _ => false
  end.

(** Modelled from the spec: what a direct lookup makes of a document:
    validation first, then the architecture allow-list. *)
Definition checked (name arch : string) (document : Document) : Exception + (string * string) :=
  match validate name document with
  | inl e => inl e
  | inr found =>
      if incompatible arch document
      then inl (IncompatibleBlueprintException name)
      else inr found
  end.

(** *** The resource constraint merger *)

(** Modelled from the spec: a value of the description is unset when it is
    zero, as in the descriptions the tests build. *)
Definition unset (value : Z) : bool := (value =? 0)%Z.

(** Modelled from the spec: the merge rule of the resource constraint merger
    (part of [DefaultVMBlueprintProvider::fetch_blueprint_for], not among the
    sources).  Unset: set to the minimum; explicit but below the minimum: an
    error naming the field, the supplied value and the minimum; explicit and
    at or above the minimum: no change. *)
Definition at_least (field : string) (minimum current : Z) : Exception + Z :=
  if unset current then inr minimum
  else if (current <? minimum)%Z then inl (BlueprintMinimumException field current minimum)
  else inr current.

(** Assignments to one field of the description. *)
Definition with_num_cores (value : Z) (vm_desc : VirtualMachineDescription) :=
  {| num_cores := value; mem_size := mem_size vm_desc; disk_space := disk_space vm_desc;
     vendor_data_config := vendor_data_config vm_desc |}.

Definition with_mem_size (value : Z) (vm_desc : VirtualMachineDescription) :=
  {| num_cores := num_cores vm_desc; mem_size := value; disk_space := disk_space vm_desc;
     vendor_data_config := vendor_data_config vm_desc |}.

Definition with_disk_space (value : Z) (vm_desc : VirtualMachineDescription) :=
  {| num_cores := num_cores vm_desc; mem_size := mem_size vm_desc; disk_space := value;
     vendor_data_config := vendor_data_config vm_desc |}.

Definition with_vendor_data_config (value : Yaml) (vm_desc : VirtualMachineDescription) :=
  {| num_cores := num_cores vm_desc; mem_size := mem_size vm_desc;
     disk_space := disk_space vm_desc; vendor_data_config := value |}.

(** Modelled from the spec: one minimum of the blueprint merged into the
    description.  [invalid] is the message for a minimum that does not
    convert. *)
Definition merge_minimum (field invalid : string) (minimum : Node Z)
    (read : VirtualMachineDescription -> Z)
    (write : Z -> VirtualMachineDescription -> VirtualMachineDescription)
  : M VirtualMachineDescription unit :=
  fun vm_desc =>
    match minimum with
    | Missing => (inr tt, vm_desc)
    | Malformed => (inl (InvalidBlueprintException invalid), vm_desc)
    | Scalar least =>
        match at_least field least (read vm_desc) with
        | inl e => (inl e, vm_desc)
        | inr value => (inr tt, write value vm_desc)
        end
    end.

(** Modelled from the spec: the three minimums, in the order cpus, memory,
    disk; field names and messages as the tests expect them. *)
Definition merge_minimums (document : Document) : M VirtualMachineDescription unit :=
  merge_minimum "Number of CPUs" "Minimum CPU value in Blueprint is invalid"
    (min_cpu document) num_cores with_num_cores ;;;
  merge_minimum "Memory size" "Minimum memory size value in Blueprint is invalid"
    (min_mem document) mem_size with_mem_size ;;;
  merge_minimum "Disk space" "Minimum disk space value in Blueprint is invalid"
    (min_disk document) disk_space with_disk_space.

(** Modelled from the spec: the cloud-init document of the blueprint, when
    present, replaces [vendor_data_config]. *)
Definition merge_cloud_init (name : string) (document : Document)
  : M VirtualMachineDescription unit :=
  fun vm_desc =>
    match cloud_init document with
    | Missing => (inr tt, vm_desc)
    | Malformed =>
        (inl (InvalidBlueprintException
                ("Cannot convert cloud-init data for the " +:+ name +:+ " Blueprint")), vm_desc)
    | Scalar payload => (inr tt, with_vendor_data_config payload vm_desc)
    end.

(** *** The image reference *)

(** Modelled from the spec: the scheme of an image reference that is a URL:
    what stands before the first [://]. *)
Definition url_scheme (reference : string) : option string :=
  match index 0 "://" reference with
  | Some n => Some (substring 0 n reference)
  | None => None
  end.

(** Modelled from the spec: the schemes a blueprint may use. *)
Definition supported_scheme (scheme : string) : bool :=
  String.eqb scheme "http" || String.eqb scheme "https" || String.eqb scheme "file".

(** Modelled from the spec: the query [fetch_blueprint_for] returns for a
    blueprint that names no image: an absent image reference defaults to the
    empty release, and no remote is pinned. *)
Definition default_query : ImageHost.Query :=
  {| ImageHost.release := ""; ImageHost.remote_name := "";
     ImageHost.allow_unsupported := false |}.

(** The failure for an image reference with another scheme. *)
Definition unsupported_scheme : Exception :=
  InvalidBlueprintException "Unsupported image scheme in Blueprint".

(** Modelled from the spec: the query for an image reference.  A URL must
    have the scheme http, https or file; any other reference is
    [remote:release], as in the second blueprint of the tests, or a plain
    release or alias. *)
Definition query_for (reference : string) : Exception + ImageHost.Query :=
  match url_scheme reference with
  | Some scheme =>
      if supported_scheme scheme
      then inr {| ImageHost.release := reference; ImageHost.remote_name := "";
                  ImageHost.allow_unsupported := false |}
      else inl unsupported_scheme
  | None =>
      match index 0 ":" reference with
      | None => inr {| ImageHost.release := reference; ImageHost.remote_name := "";
                       ImageHost.allow_unsupported := false |}
      | Some n =>
          inr {| ImageHost.release :=
                   substring (S n) (String.length reference - S n) reference;
                 ImageHost.remote_name := substring 0 n reference;
                 ImageHost.allow_unsupported := false |}
      end
  end.

(** Modelled from the spec: the query built from the image key of a
    document. *)
Definition image_query (name : string) (document : Document) : Exception + ImageHost.Query :=
  match image document with
  | Missing => inr default_query
  | Malformed => inl (bad_conversion "image" name)
  | Scalar reference => query_for reference
  end.

(** Modelled from the spec: what [fetch_blueprint_for] does with the
    document it found: validate, merge the minimums, set the cloud-init
    payload, build the query. *)
Definition merge_blueprint (name arch : string) (document : Document)
  : M VirtualMachineDescription ImageHost.Query :=
  lift (checked name arch document) ;;;
  merge_minimums document ;;;
  merge_cloud_init name document ;;;
  lift (image_query name document).

(** *** The provider *)

(** Modelled from the spec: the state of [DefaultVMBlueprintProvider] (not
    among the sources): the architecture it serves, the URL of the bundle, and
    the cache of the bundle's documents. *)
Record Provider : Type := mkProvider {
  arch : string;
  url : string;
  cache : Cache (gmap string Document)
}.

Section DefaultVMBlueprintProvider.

(** The downloader and the zip reader, mocked in the tests: what
    downloading the bundle at time [now] yields, and what extracting an
    archive yields. *)
Context {Archive : Type}.
Variable download_to : string -> Z -> Exception + Archive.
Variable zip_archive_for : Archive -> Exception + gmap string Document.

(** Modelled from the spec: one fetch of the bundle, download then
    extraction. *)
Definition fetch_blueprints (key : string) (now : Z) : Exception + gmap string Document :=
  match download_to key now with
  | inl e => inl e
  | inr archive => zip_archive_for archive
  end.

(** Modelled from the spec: transport and archive-extraction failures are
    logged and swallowed. *)
Definition swallowed (e : Exception) : bool :=
  match e with
  | DownloadException _ _ | PocoException _ => true
  | _ => false
  end.

(** Modelled from the spec: the log line of a swallowed failure, as the
    tests expect it. *)
Definition error_line (e : Exception) : string :=
  match e with
  | DownloadException from cause =>
      "Error fetching Blueprints: failed to download from '" +:+ from +:+ "': " +:+ cause
  | PocoException what => "Error extracting Blueprints zip file: " +:+ what
  | _ => ""
  end.

(** Modelled from the spec: [update_blueprints], the TTL-gated refresh of
    the bundle. *)
Definition update_blueprints (now : Z) : M Provider unit :=
  fun provider =>
    match refresh fetch_blueprints swallowed error_line (url provider) now (cache provider) with
    | (outcome, cache') =>
        (outcome, {| arch := arch provider; url := url provider; cache := cache' |})
    end.

(** Modelled from the spec: construction downloads the bundle into an empty
    cache. *)
Definition construct (blueprints_url : string) (time_to_live : Z) (architecture : string)
    (now : Z) : Exception + Provider :=
  match update_blueprints now
          {| arch := architecture; url := blueprints_url; cache := empty time_to_live |} with
  | (inl e, _) => inl e
  | (inr _, provider) => inr provider
  end.

(** Modelled from the spec: the documents the provider holds; none when no
    fetch ever succeeded. *)
Definition blueprint_map (provider : Provider) : gmap string Document :=
  match entries (cache provider) !! url provider with
  | Some entry => data entry
  | None => ∅
  end.

(** Modelled from the spec: [blueprint_map.at(name)]. *)
Definition at_name (name : string) : M Provider Document :=
  fun provider =>
    match blueprint_map provider !! name with
    | Some document => (inr document, provider)
    | None => (inl (out_of_range name), provider)
    end.

(** Modelled from the spec: [info_for]. *)
Definition info_for (name : string) (now : Z) : M Provider BlueprintInfo :=
  update_blueprints now ;;;
  document <- at_name name ;;
  fun provider =>
    match checked name (arch provider) document with
    | inl e => (inl e, provider)
    | inr (title, number) =>
        (inr {| info_aliases := [name]; info_release_title := title; info_version := number |},
         provider)
    end.

(** Modelled from the spec: [fetch_blueprint_for]; the description is passed
    by reference, so it is part of the state. *)
Definition fetch_blueprint_for (name : string) (now : Z)
  : M (Provider * VirtualMachineDescription) ImageHost.Query :=
  fun state =>
    match (update_blueprints now ;;; at_name name) (fst state) with
    | (inl e, provider) => (inl e, (provider, snd state))
    | (inr document, provider) =>
        match merge_blueprint name (arch provider) document (snd state) with
        | (outcome, vm_desc) => (outcome, (provider, vm_desc))
        end
    end.

End DefaultVMBlueprintProvider.

End Blueprint.

(** ** Sample blueprints *)
Module BlueprintExamples.
Import CatalogCache Blueprint.

Definition GiB : Z := 1024 * 1024 * 1024.

(** The first blueprint of the test bundle: two cores, [2G] of memory,
    [25G] of disk, a cloud-init payload, no image. *)
Definition test_blueprint1 : Document :=
  {| description := Scalar "The first test blueprint"; version := Scalar "0.1";
     runs_on := Missing;
     min_cpu := Scalar 2%Z; min_mem := Scalar (2 * GiB)%Z; min_disk := Scalar (25 * GiB)%Z;
     image := Missing;
     cloud_init := Scalar (Emitted "runcmd: [echo Have fun!]");
     timeout := Scalar 600%Z |}.

Definition test_blueprint2 : Document :=
  {| description := Scalar "Another test blueprint"; version := Scalar "0.1";
     runs_on := Missing;
     min_cpu := Scalar 4%Z; min_mem := Scalar (4 * GiB)%Z; min_disk := Scalar (50 * GiB)%Z;
     image := Scalar "daily:bionic"; cloud_init := Missing; timeout := Missing |}.

Definition plain (title : string) : Document :=
  {| description := Scalar title; version := Scalar "0.1"; runs_on := Missing;
     min_cpu := Missing; min_mem := Missing; min_disk := Missing;
     image := Missing; cloud_init := Missing; timeout := Missing |}.

Definition no_image_blueprint : Document := plain "A blueprint without an image".

Definition ftp_image_blueprint : Document :=
  {| description := Scalar "A blueprint with an ftp image"; version := Scalar "0.1";
     runs_on := Missing;
     min_cpu := Missing; min_mem := Missing; min_disk := Missing;
     image := Scalar "ftp://example.com/disk.img"; cloud_init := Missing; timeout := Missing |}.

Definition missing_description_blueprint : Document :=
  {| description := Missing; version := Scalar "0.1"; runs_on := Missing;
     min_cpu := Missing; min_mem := Missing; min_disk := Missing;
     image := Missing; cloud_init := Missing; timeout := Missing |}.

Definition arch_only : Document :=
  {| description := Scalar "An arch-only blueprint"; version := Scalar "0.1";
     runs_on := Scalar ["arch"];
     min_cpu := Missing; min_mem := Missing; min_disk := Missing;
     image := Missing; cloud_init := Missing; timeout := Missing |}.

Definition test_bundle : gmap string Document :=
  <["test-blueprint1" := test_blueprint1]>
  (<["test-blueprint2" := test_blueprint2]>
  (<["no-image-blueprint" := no_image_blueprint]>
  (<["ftp-image-blueprint" := ftp_image_blueprint]>
  (<["missing-description-blueprint" := missing_description_blueprint]>
  (<["arch-only" := arch_only]> ∅))))).

Definition bundle_url : string := "file:///test-blueprints.zip".

(** A downloader that always delivers the archive (here, its name), and a
    zip reader that finds the test bundle in it. *)
Definition download_ok (from : string) (now : Z) : Exception + string := inr from.
Definition unzip_ok (archive : string) : Exception + gmap string Document := inr test_bundle.

(** Downloaders and zip readers that fail. *)
Definition download_fails (from : string) (now : Z) : Exception + string :=
  inl (DownloadException "https://fake.url" "There is a problem, Houston.").
Definition unzip_fails (archive : string) : Exception + gmap string Document :=
  inl (PocoException "Illegal state: Rubbish zip file").
Definition download_breaks (from : string) (now : Z) : Exception + string :=
  inl (runtime_error "Bad stuff just happened").

(** The provider after a successful construction at time 0, with a TTL of
    one second (in milliseconds). *)
Definition test_cache : Cache (gmap string Document) :=
  {| ttl := 1000; entries := {[bundle_url := mkEntry test_bundle 0%Z]};
     fetches := [(bundle_url, 0%Z)]; log := [] |}.

Definition test_provider : Provider :=
  {| arch := "x86_64"; url := bundle_url; cache := test_cache |}.

Definition unset_description : VirtualMachineDescription :=
  {| num_cores := 0; mem_size := 0; disk_space := 0; vendor_data_config := Null |}.

Definition one_core : VirtualMachineDescription :=
  {| num_cores := 1; mem_size := 0; disk_space := 0; vendor_data_config := Null |}.

Definition small_memory : VirtualMachineDescription :=
  {| num_cores := 0; mem_size := GiB; disk_space := 0; vendor_data_config := Null |}.

Definition small_disk : VirtualMachineDescription :=
  {| num_cores := 0; mem_size := 0; disk_space := 20 * GiB; vendor_data_config := Null |}.

Definition generous : VirtualMachineDescription :=
  {| num_cores := 4; mem_size := 4 * GiB; disk_space := 50 * GiB;
     vendor_data_config := Null |}.

End BlueprintExamples.

(** ** Strings of the Qt and C++ libraries *)
Module QtString.

(** [QString::split(sep)], keeping empty parts: the fields between the
    separators; a string without separator is its only field. *)
Fixpoint split (sep : ascii) (s : string) : list string :=
  match s with
  | EmptyString => [EmptyString]
  | String c rest =>
      if Ascii.eqb c sep then EmptyString :: split sep rest
      else match split sep rest with
           | field :: fields => String c field :: fields
           | [] => [String c EmptyString]
           end
  end.

Definition is_empty (s : string) : bool :=
  match s with
  | EmptyString => true
  | _ => false
  end.

(** [QString::split(sep, QString::SkipEmptyParts)]. *)
Definition split_skip_empty (sep : ascii) (s : string) : list string :=
  List.filter (fun part => negb (is_empty part)) (split sep s).

(** [QStringList::join(sep)]. *)
Fixpoint join (sep : ascii) (fields : list string) : string :=
  match fields with
  | [] => EmptyString
  | [field] => field
  | field :: rest => field +:+ String sep (join sep rest)
  end.

(** [QString::count(ch)]. *)
Fixpoint count (ch : ascii) (s : string) : nat :=
  match s with
  | EmptyString => 0
  | String c rest => (if Ascii.eqb c ch then 1 else 0) + count ch rest
  end.

(** [QString::section(sep, first, last)] with the default flags, for field
    numbers counted from the left: the fields [first] to [last], joined by
    the separator; [last] is [None] for the default, the last field. *)
Definition section (sep : ascii) (first : nat) (last : option nat) (s : string) : string :=
  let fields := split sep s in
  let stop := match last with
              | Some n => S n
              | None => length fields
              end in
  join sep (drop first (take stop fields)).

(** [std::string::resize(n)]: cut to [n] characters, or filled up to [n]
    with the character of code 0. *)
Fixpoint resize (n : nat) (s : string) : string :=
  match n with
  | 0 => EmptyString
  | S n' =>
      match s with
      | EmptyString => String zero (resize n' EmptyString)
      | String c rest => String c (resize n' rest)
      end
  end.

End QtString.

(** ** Sample downloads for [fetch_manifests] *)
Module ImageHostFetchExamples.
Import ImageHost ImageHostExamples.

Definition released_index : SimpleStreamsIndex :=
  {| manifest_path := "streams/v1/com.ubuntu.cloud:released:download.json" |}.

(** A downloader that answers with the URL it is asked for, and cannot reach
    the daily remote. *)
Definition sample_download (url : string) : M unit string :=
  if String.prefix "https://cloud-images.example/daily/" url
  then throw (DownloadException url "Network timeout")
  else ret url.

(** A downloader whose downloads are cancelled, which is no
    [DownloadException]. *)
Definition aborted_download (url : string) : M unit string :=
  throw (runtime_error ("Operation canceled: " +:+ url)).

Definition sample_index (json : string) : Exception + SimpleStreamsIndex :=
  inr released_index.

Definition sample_manifest_from_json (json host_url : string)
  : Exception + SimpleStreamsManifest :=
  inr (sample_manifest [release_ab]).

(** A report that only logs. *)
Definition quiet_report (message : string) : M (Host unit) unit := ret tt.

Definition empty_host : Host unit := {| manifests := []; world := tt |}.

Definition query_zz : Query := {| release := "zz"; remote_name := ""; allow_unsupported := false |}.

(** A platform that supports no remote. *)
Definition no_remote (remote : string) : Exception + unit :=
  inl (UnsupportedRemoteException remote).

End ImageHostFetchExamples.

(** ** The launch command: [cmd::Launch] *)
Module Launch.
Import QtString.

(** The one exception the helpers of the command throw. *)
Inductive ValidationException : Type :=
| validation_exception (what : string).

(** [LaunchRequest_NetworkOptions_Mode], the two modes the command names. *)
Inductive Mode : Type :=
| AUTO
| MANUAL.

(** [LaunchRequest_NetworkOptions], a protobuf message (declared outside the
    sources): its three fields, which a new message holds empty, with the
    mode the help of the command gives as the default. *)
Record NetworkOptions : Type := mkNetworkOptions {
  id : string;
  mode : Mode;
  mac_address : string
}.

Definition new_network : NetworkOptions := {| id := ""; mode := AUTO; mac_address := "" |}.

Definition set_id (value : string) (net : NetworkOptions) : NetworkOptions :=
  {| id := value; mode := mode net; mac_address := mac_address net |}.

Definition set_mode (value : Mode) (net : NetworkOptions) : NetworkOptions :=
  {| id := id net; mode := value; mac_address := mac_address net |}.

Definition set_mac_address (value : string) (net : NetworkOptions) : NetworkOptions :=
  {| id := id net; mode := mode net; mac_address := value |}.

Definition checked_mode (mode : string) : ValidationException + Mode :=
  if String.eqb mode "auto" then inr AUTO
  else if String.eqb mode "manual" then inr MANUAL
  else inl (validation_exception
              ("Bad network mode '" +:+ mode +:+ "', need 'auto' or 'manual'")).

Section NetDigest.

(** [mpu::valid_mac_address] and [QString::toLower], whose code is not among
    the sources. *)
Variable valid_mac_address : string -> bool.
Variable to_lower : string -> string.

Definition checked_mac (mac : string) : ValidationException + string :=
  if negb (valid_mac_address mac)
  then inl (validation_exception ("Invalid MAC address: " +:+ mac))
  else inr mac.

(** The body of the loop of [net_digest] for one part of the options;
    [parts] is the number of parts the options split into. *)
Definition digest_pair (parts : nat) (key_value_pair : string) (net : NetworkOptions)
  : ValidationException + NetworkOptions :=
  match split_skip_empty "=" key_value_pair with
  | [first; val] =>
      let key := to_lower first in
      if String.eqb key "name" then inr (set_id val net)
      else if String.eqb key "mode" then
        match checked_mode (to_lower val) with
        | inl e => inl e
        | inr value => inr (set_mode value net)
        end
      else if String.eqb key "mac" then
        match checked_mac val with
        | inl e => inl e
        | inr value => inr (set_mac_address value net)
        end
      else inl (validation_exception ("Bad network field: " +:+ key))
  | [name] =>
      if (parts =? 1)%nat then inr (set_id name net)
      else inl (validation_exception ("Bad network field definition: " +:+ key_value_pair))
  | _ => inl (validation_exception ("Bad network field definition: " +:+ key_value_pair))
  end.

(** The loop of [net_digest] over the parts. *)
Fixpoint digest_pairs (parts : nat) (pairs : list string) (net : NetworkOptions)
  : ValidationException + NetworkOptions :=
  match pairs with
  | [] => inr net
  | key_value_pair :: rest =>
      match digest_pair parts key_value_pair net with
      | inl e => inl e
      | inr net' => digest_pairs parts rest net'
      end
  end.

Definition net_digest (options : string) : ValidationException + NetworkOptions :=
  let parts := split_skip_empty "," options in
  match digest_pairs (length parts) parts new_network with
  | inl e => inl e
  | inr net =>
      if is_empty (id net)
      then inl (validation_exception "Bad network definition, need at least a 'name' field")
      else inr net
  end.

End NetDigest.

Definition newline : string := String (ascii_of_nat 10) EmptyString.

(** The fields of the [LaunchRequest] that the image argument sets. *)
Record LaunchRequest : Type := mkRequest {
  image : string;
  remote_name : string
}.

Definition http_or_file (name : string) : bool :=
  String.prefix "http://" name || String.prefix "https://" name
  || String.prefix "file://" name.

(** The block of [Launch::parse_args] for the positional argument, once it is
    known to be there: the request with the image set, or the message written
    to [cerr] when the argument is refused with [CommandLineError]. *)
Definition parse_image_argument (remote_image_name : string) (request : LaunchRequest)
  : string + LaunchRequest :=
  if http_or_file remote_image_name
  then inr {| image := remote_image_name; remote_name := remote_name request |}
  else
    let colon_count := count ":" remote_image_name in
    if (1 <? colon_count)%nat
    then inl ("Invalid remote and source image name supplied" +:+ newline)
    else if (colon_count =? 1)%nat
    then inr {| image := section ":" 1 None remote_image_name;
                remote_name := section ":" 0 (Some 0) remote_image_name |}
    else inr {| image := remote_image_name; remote_name := remote_name request |}.

Definition ascii_letter (c : ascii) : bool :=
  let n := nat_of_ascii c in
  ((65 <=? n) && (n <=? 90) || (97 <=? n) && (n <=? 122))%nat.

(** A match of the regular expression of the mount option, a drive letter,
    a colon and a slash of either kind at the start of the value. *)
Definition windows_path (value : string) : bool :=
  match value with
  | String letter (String colon (String slash _)) =>
      ascii_letter letter && Ascii.eqb colon ":"
      && (Ascii.eqb slash "\" || Ascii.eqb slash "/")
  | _ => false
  end.

(** The body of the loop of [Launch::parse_args] over the values of the
    mount option: the route, source and target, that it adds. *)
Definition mount_route (value : string) : string * string :=
  let colon_split := Nat.b2n (windows_path value) in
  let mount_source := section ":" 0 (Some colon_split) value in
  let mount_target := section ":" (colon_split + 1) None value in
  (mount_source, if is_empty mount_target then mount_source else mount_target).

(** A return code of the client: [Ok], or any other. *)
Inductive ReturnCode : Type :=
| Ok
| Failed (code : nat).

Definition is_ok (ret : ReturnCode) : bool :=
  match ret with
  | Ok => true
  | Failed _ => false
  end.

Section Run.

(** What running [multipass mount] for a route does and returns, the
    constant [home_automount_dir] and what writing a line to [cout] does,
    all declared outside the sources. *)
Context {World : Type}.
Variable mount : string -> string -> World -> ReturnCode * World.
Variable home_automount_dir : string.
Variable cout : string -> World -> World.

(** The loop of [Launch::run] over the mount routes. *)
Fixpoint mount_each (routes : list (string * string)) (ret : ReturnCode) (w : World)
  : ReturnCode * World :=
  match routes with
  | [] => (ret, w)
  | route :: rest =>
      match mount (fst route) (snd route) w with
      | (mount_ret, w') => mount_each rest (if is_ok ret then mount_ret else ret) w'
      end
  end.

(** What the mounts of the routes return, one after another. *)
Fixpoint mount_results (routes : list (string * string)) (w : World) : list ReturnCode :=
  match routes with
  | [] => []
  | route :: rest =>
      match mount (fst route) (snd route) w with
      | (mount_ret, w') => mount_ret :: mount_results rest w'
      end
  end.

(** The mount routes of [Launch::run] once the launch succeeded.  With the
    mounts feature enabled (the setting [mounts_key]), the home of the user
    (as the [try] block finds it) is added to the routes of the primary
    instance unless a route to the automount directory is there; with the
    feature disabled the routes are left as they are. *)
Definition routes_after_launch (mounts_enabled : bool)
    (instance_name petenv_name home : string)
    (mount_routes : list (string * string)) : list (string * string) :=
  if mounts_enabled
  then
    let has_home_mount :=
      existsb (fun route => String.eqb (snd route) home_automount_dir) mount_routes in
    if String.eqb instance_name petenv_name && negb has_home_mount
    then mount_routes ++ [(home, home_automount_dir)]
    else mount_routes
  else mount_routes.

(** [Launch::run] from the return code of [request_launch] on: a failed
    launch is returned as it is; after a launch that succeeded the routes
    are mounted when the mounts feature is enabled, and a line is written
    and nothing mounted when it is disabled. *)
Definition mount_after_launch (ret : ReturnCode) (mounts_enabled : bool)
    (instance_name petenv_name home : string)
    (mount_routes : list (string * string)) (w : World) : ReturnCode * World :=
  match ret with
  | Failed _ => (ret, w)
  | Ok =>
      if mounts_enabled
      then mount_each
             (routes_after_launch mounts_enabled instance_name petenv_name home mount_routes)
             ret w
      else (ret, cout ("Skipping mount due to disabled mounts feature" +:+ newline) w)
  end.

End Run.

End Launch.

(** ** The QEMU platform on Linux: [QemuPlatformDetail] *)
Module Qemu.
Import QtString.

(** [fmt::format] of a number with [{:x}]. *)
Definition hex (n : N) : string :=
  HexadecimalString.NilZero.string_of_uint (N.to_hex_uint n).

(** The fields of [mp::VirtualMachineDescription] that the platform reads. *)
Record VirtualMachineDescription : Type := mkDescription {
  vm_name : string;
  default_mac_address : string
}.

(** The state of the platform: the bridge, the devices it made, by instance
    name (the tap device and the hardware address), and [world], the network
    interfaces of the host and the DHCP server. *)
Record QemuPlatformDetail (World : Type) : Type := mkPlatform {
  bridge_name : string;
  name_to_net_device_map : gmap string (string * string);
  world : World
}.
Arguments mkPlatform {World} _ _ _.
Arguments bridge_name {World} _.
Arguments name_to_net_device_map {World} _.
Arguments world {World} _.

Section Platform.

Context {World : Type}.

(** [std::hash] of a string, [MP_UTILS.run_cmd_for_status] and
    [dnsmasq_server->release_mac], whose code is not among the sources. *)
Variable hash : string -> N.
Variable run_cmd_for_status : string -> list string -> World -> bool * World.
Variable release_mac : string -> M World unit.

Definition generate_tap_device_name (vm_name : string) : string :=
  resize 15 ("tap-" +:+ hex (hash vm_name)).

Definition create_tap_device (tap_name bridge_name : string) (w : World) : World :=
  match run_cmd_for_status "ip" ["addr"; "show"; tap_name] w with
  | (true, w1) => w1
  | (false, w1) =>
      let w2 := snd (run_cmd_for_status "ip" ["tuntap"; "add"; tap_name; "mode"; "tap"] w1) in
      let w3 :=
        snd (run_cmd_for_status "ip" ["link"; "set"; tap_name; "master"; bridge_name] w2) in
      snd (run_cmd_for_status "ip" ["link"; "set"; tap_name; "up"] w3)
  end.

Definition remove_tap_device (tap_device_name : string) (w : World) : World :=
  match run_cmd_for_status "ip" ["addr"; "show"; tap_device_name] w with
  | (true, w1) => snd (run_cmd_for_status "ip" ["link"; "delete"; tap_device_name] w1)
  | (false, w1) => w1
  end.

Definition remove_resources_for (name : string) : M (QemuPlatformDetail World) unit :=
  fun platform =>
    match name_to_net_device_map platform !! name with
    | Some (tap_device_name, hw_addr) =>
        match release_mac hw_addr (world platform) with
        | (inl e, w) =>
            (inl e, {| bridge_name := bridge_name platform;
                       name_to_net_device_map := name_to_net_device_map platform;
                       world := w |})
        | (inr _, w) =>
            (inr tt, {| bridge_name := bridge_name platform;
                        name_to_net_device_map := delete name (name_to_net_device_map platform);
                        world := remove_tap_device tap_device_name w |})
        end
    | None => (inr tt, platform)
    end.

(** [std::unordered_map::emplace]: nothing is stored when the key is there. *)
Definition emplace (name : string) (device : string * string)
    (devices : gmap string (string * string)) : gmap string (string * string) :=
  match devices !! name with
  | Some _ => devices
  | None => <[name := device]> devices
  end.

Definition vm_platform_args (vm_desc : VirtualMachineDescription)
    (platform : QemuPlatformDetail World) : list string * QemuPlatformDetail World :=
  let tap_device_name := generate_tap_device_name (vm_name vm_desc) in
  let w := create_tap_device tap_device_name (bridge_name platform) (world platform) in
  (["--enable-kvm"; "-cpu"; "host"; "-nic";
    "tap,ifname=" +:+ tap_device_name
    +:+ ",script=no,downscript=no,model=virtio-net-pci,mac=" +:+ default_mac_address vm_desc],
   {| bridge_name := bridge_name platform;
      name_to_net_device_map :=
        emplace (vm_name vm_desc) (tap_device_name, default_mac_address vm_desc)
          (name_to_net_device_map platform);
      world := w |}).

End Platform.

End Qemu.

(** * Properties of the manifest resolver *)
Module ImageHostFacts.
Import ImageHost.

Lemma prefix_append (s t : string) : String.prefix s (s +:+ t) = true.
Proof.
  induction s as [|a s IH].
  - by destruct t.
  - change (String a s +:+ t) with (String a (s +:+ t)). simpl.
    destruct (ascii_dec a a); [exact IH | congruence].
Qed.

Lemma key_from_nonempty (s : string) : key_from s <> "".
Proof.
  unfold key_from. destruct (String.eqb_spec s ""); [discriminate | assumption].
Qed.

Lemma id_resolved (url : string) (info : VMImageInfo) :
  id (with_location_fully_resolved url info) = id info.
Proof. reflexivity. Qed.

Lemma find_remote_Some {A : Type} (name : string) (l : list (string * A)) (element : string * A) :
  find_remote name l = Some element -> element ∈ l /\ fst element = name.
Proof.
  unfold find_remote. intros Hfind. apply find_some in Hfind as [Hin Heq].
  split; [by apply list_elem_of_In | by apply String.eqb_eq].
Qed.

Section Resolver.

Context {World : Type}.
Variable remotes : list (string * string).
Variable check_alias_is_supported : string -> string -> Exception + unit.
Variable check_remote_is_supported : string -> Exception + unit.
Variable check_all_aliases_are_supported : list string -> string -> bool.
Variable update_manifests : M (Host World) unit.

Local Abbreviation remote_url_from := (ImageHost.remote_url_from remotes).
Local Abbreviation manifest_from :=
  (ImageHost.manifest_from check_remote_is_supported update_manifests).
Local Abbreviation scan_products := (ImageHost.scan_products remotes).
Local Abbreviation search_remotes :=
  (ImageHost.search_remotes remotes check_remote_is_supported update_manifests).
Local Abbreviation all_info_for :=
  (ImageHost.all_info_for remotes check_alias_is_supported check_remote_is_supported
     update_manifests).
Local Abbreviation info_for :=
  (ImageHost.info_for remotes check_alias_is_supported check_remote_is_supported
     update_manifests).
Local Abbreviation all_images_for :=
  (ImageHost.all_images_for remotes check_remote_is_supported
     check_all_aliases_are_supported update_manifests).
Local Abbreviation info_for_full_hash_impl :=
  (ImageHost.info_for_full_hash_impl (World:=World) remotes).
Local Abbreviation find_full_hash := (ImageHost.find_full_hash remotes).
Local Abbreviation searched :=
  (ImageHost.searched check_remote_is_supported update_manifests).
Local Abbreviation served := (ImageHost.served check_remote_is_supported update_manifests).
Local Abbreviation visited := (ImageHost.visited check_remote_is_supported update_manifests).
Local Abbreviation resolved_once := (ImageHost.resolved_once remotes).
Local Abbreviation supported_remotes := (ImageHost.supported_remotes remotes).
Local Abbreviation base_url := (ImageHost.base_url remotes).
Local Abbreviation known_remotes := (ImageHost.known_remotes (World:=World) remotes).
Local Abbreviation contributes :=
  (ImageHost.contributes remotes check_remote_is_supported update_manifests).
Local Abbreviation resolve remote :=
  (with_location_fully_resolved (remote_url_from remote)).

(** For a configured remote, [remote_url_from] finds its base URL. *)
Lemma base_url_intro (remote : string) :
  remote ∈ supported_remotes -> base_url remote (remote_url_from remote).
Proof.
  unfold ImageHost.supported_remotes, ImageHost.base_url, ImageHost.remote_url_from,
    find_remote.
  induction remotes as [|[n u] rs IH]; intros Hin; [by apply elem_of_nil in Hin|].
  simpl. destruct (String.eqb_spec n remote) as [-> | Hne].
  - exists [], rs. split; [done | apply not_elem_of_nil].
  - simpl in Hin. apply elem_of_cons in Hin as [-> | Hin]; [done|].
    destruct (IH Hin) as (before & after & Heq & Hfirst).
    exists ((n, u) :: before), after.
    split; [by rewrite Heq at 1|]. simpl. apply not_elem_of_cons. by split.
Qed.

Lemma resolved_once_intro (remote : string) (stored : VMImageInfo) :
  remote ∈ supported_remotes -> resolved_once remote stored (resolve remote stored).
Proof.
  intros Hin. exists (remote_url_from remote). split; [by apply base_url_intro|].
  simpl. repeat split; apply prefix_append.
Qed.

(** *** The manifests of configured remotes *)

(** [manifest_from] keeps the manifests those of configured remotes when the
    refresh does, and a remote it finds a manifest for is configured. *)
Lemma manifest_from_known remote h outcome h1 :
  (forall h0, known_remotes h0 -> known_remotes (snd (update_manifests h0))) ->
  known_remotes h ->
  manifest_from remote h = (outcome, h1) ->
  known_remotes h1 /\
  (forall manifest, outcome = inr manifest -> remote ∈ supported_remotes).
Proof.
  intros Hupdate Hknown. unfold ImageHost.manifest_from, bind, lift.
  destruct (check_remote_is_supported remote) as [e|[]]; [by intros [= <- <-]|].
  specialize (Hupdate h Hknown).
  destruct (update_manifests h) as [[e|[]] h2]; simpl in Hupdate; [by intros [= <- <-]|].
  destruct (find_remote remote (manifests h2)) as [element|] eqn:Hfind.
  - intros [= <- <-]. split; [done|]. intros manifest _.
    apply find_remote_Some in Hfind as [Hin <-].
    unfold ImageHost.known_remotes in Hupdate. rewrite Forall_forall in Hupdate.
    by apply Hupdate.
  - by intros [= <- <-].
Qed.

Lemma visited_known rs h remote manifest :
  (forall h0, known_remotes h0 -> known_remotes (snd (update_manifests h0))) ->
  known_remotes h ->
  visited rs h remote manifest ->
  remote ∈ supported_remotes.
Proof.
  intros Hupdate Hknown Hvisited.
  induction Hvisited as [remote rest h manifest h1 Hm
                        | earlier rest h outcome h1 remote manifest Hm _ IH].
  - by apply (proj2 (manifest_from_known _ _ _ _ Hupdate Hknown Hm) manifest).
  - apply IH. apply (manifest_from_known _ _ _ _ Hupdate Hknown Hm).
Qed.

(** The configured URL of a remote is the one of its first entry. *)
Lemma remote_url_from_first (name url : string) (before after : list (string * string)) :
  remotes = before ++ (name, url) :: after ->
  Forall (fun element => fst element <> name) before ->
  remote_url_from name = url.
Proof.
  intros -> Hbefore. unfold ImageHost.remote_url_from, find_remote.
  induction Hbefore as [|[n u] before Hn _ IH]; simpl.
  - by rewrite String.eqb_refl.
  - simpl in Hn. apply String.eqb_neq in Hn. by rewrite Hn.
Qed.

(** *** The hash-prefix scan *)

Lemma scan_products_app query key remote entries found images :
  scan_products query key remote entries found images
  = images ++ scan_products query key remote entries found [].
Proof.
  revert found images.
  induction entries as [|entry rest IH]; intros found images; simpl.
  - by rewrite app_nil_r.
  - destruct (_ && _ && _).
    + rewrite (IH _ (images ++ _)), (IH _ [_]). by rewrite <- app_assoc.
    + apply IH.
Qed.

Lemma scan_products_sound query key remote entries found p :
  p ∈ scan_products query key remote entries found [] ->
  exists entry, entry ∈ entries /\ p = (remote, resolve remote entry)
                /\ hash_match query key entry = true.
Proof.
  revert found. induction entries as [|entry rest IH]; intros found; simpl.
  - intros Hin. by apply elem_of_nil in Hin.
  - destruct (String.prefix key (id entry) && (supported entry || allow_unsupported query))
      eqn:Hq; simpl.
    + destruct (bool_decide _); simpl.
      * rewrite scan_products_app. simpl. intros Hin.
        apply elem_of_cons in Hin as [-> | Hin].
        -- exists entry. split; [left | done].
        -- destruct (IH _ Hin) as (e & He & Hp & Hm). exists e. split; [by right | done].
      * intros Hin. destruct (IH _ Hin) as (e & He & Hp & Hm).
        exists e. split; [by right | done].
    + intros Hin. destruct (IH _ Hin) as (e & He & Hp & Hm).
      exists e. split; [by right | done].
Qed.

Lemma scan_products_complete query key remote entries (found : gset string) entry :
  entry ∈ entries -> hash_match query key entry = true -> id entry ∉ found ->
  id entry ∈ map (fun p => id (snd p)) (scan_products query key remote entries found []).
Proof.
  revert found. induction entries as [|e rest IH]; intros found Hin Hm Hfresh.
  - by apply elem_of_nil in Hin.
  - simpl. apply elem_of_cons in Hin as [<- | Hin].
    + unfold hash_match in Hm. rewrite Hm. rewrite bool_decide_eq_true_2 by done. simpl.
      rewrite scan_products_app. simpl. left.
    + destruct (String.prefix key (id e) && (supported e || allow_unsupported query)
                && bool_decide (id e ∉ found)) eqn:Hc.
      * rewrite scan_products_app. simpl.
        destruct (decide (id entry = id e)) as [-> | Hne]; [left|].
        right. apply IH; [done | done |].
        rewrite elem_of_union, elem_of_singleton. by intros [?|?].
      * by apply IH.
Qed.

(** *** One step of the loop over the remotes *)

Lemma search_remotes_alias query key remote rest images h manifest h1 info :
  manifest_from remote h = (inr manifest, h1) ->
  match_alias key manifest = Some info ->
  supported info || allow_unsupported query = true ->
  search_remotes query key (remote :: rest) images h
  = search_remotes query key rest (images ++ [(remote, resolve remote info)]) h1.
Proof.
  intros Hm Ha Hs. simpl. rewrite Hm, Ha.
  destruct (supported info), (allow_unsupported query); simpl in *; done.
Qed.

Lemma search_remotes_scan query key remote rest images h manifest h1 :
  manifest_from remote h = (inr manifest, h1) ->
  match_alias key manifest = None ->
  search_remotes query key (remote :: rest) images h
  = search_remotes query key rest
      (images ++ scan_products query key remote (products manifest) ∅ []) h1.
Proof.
  intros Hm Ha. simpl. rewrite Hm, Ha. by rewrite scan_products_app.
Qed.

Lemma search_remotes_unsupported query key remote rest images h what h1 :
  manifest_from remote h = (inl (UnsupportedRemoteException what), h1) ->
  search_remotes query key (remote :: rest) images h
  = if decide (remote_name query = "")
    then search_remotes query key rest images h1
    else (inl (UnsupportedRemoteException what), h1).
Proof.
  intros Hm. simpl. rewrite Hm.
  destruct (String.eqb_spec (remote_name query) ""), (decide (remote_name query = "")); done.
Qed.

Lemma served_later key earlier rest h outcome h1 remote stored :
  manifest_from earlier h = (outcome, h1) ->
  served key rest h1 remote stored ->
  served key (earlier :: rest) h remote stored.
Proof.
  intros Hm (manifest & Hvisited & Hstored). exists manifest.
  split; [by eapply visited_later | done].
Qed.

(** Whatever the loop returns extends [images] by one block of matches per
    remote searched, in the order of the search; each match carries the name
    of its remote and is a served record resolved once against it. *)
Lemma search_remotes_blocks query key rs :
  forall images h out h',
    search_remotes query key rs images h = (inr out, h') ->
    exists per_remote,
      Forall2 (fun remote found => Forall (fun p => fst p = remote) found) rs per_remote /\
      Forall (fun p => exists stored, served key rs h (fst p) stored /\
                                      snd p = resolve (fst p) stored)
             (concat per_remote) /\
      out = images ++ concat per_remote.
Proof.
  induction rs as [|remote rest IH]; intros images h out h' Hrun.
  - injection Hrun as <- <-. exists []. split; [constructor|].
    split; [constructor | by rewrite app_nil_r].
  - assert (Hlater : forall outcome h1 found,
               manifest_from remote h = (outcome, h1) ->
               Forall (fun p => exists stored, served key rest h1 (fst p) stored /\
                                               snd p = resolve (fst p) stored) found ->
               Forall (fun p => exists stored, served key (remote :: rest) h (fst p) stored /\
                                               snd p = resolve (fst p) stored) found).
    { intros outcome h1 found Hm Hfound. eapply Forall_impl; [exact Hfound|].
      intros p (stored & Hserved & Hp).
      exists stored. split; [by eapply served_later | done]. }
    destruct (manifest_from remote h) as [[e|manifest] h1] eqn:Hm.
    + destruct e; try (simpl in Hrun; rewrite Hm in Hrun; discriminate).
      rewrite (search_remotes_unsupported _ _ _ _ _ _ _ _ Hm) in Hrun.
      destruct (decide _); [|discriminate].
      destruct (IH _ _ _ _ Hrun) as (per & Hper & Hserved & ->).
      exists ([] :: per). split; [constructor; [constructor | done]|].
      split; [by eapply Hlater | done].
    + destruct (match_alias key manifest) as [info|] eqn:Ha.
      * destruct (supported info || allow_unsupported query) eqn:Hs.
        -- rewrite (search_remotes_alias _ _ _ _ _ _ _ _ _ Hm Ha Hs) in Hrun.
           destruct (IH _ _ _ _ Hrun) as (per & Hper & Hserved & ->).
           exists ([(remote, resolve remote info)] :: per).
           split; [constructor; [by repeat constructor | done]|]. split.
           ++ simpl. constructor; [|by eapply Hlater].
              exists info. split; [|done]. exists manifest.
              split; [by eapply visited_here | by left].
           ++ simpl. by rewrite <- app_assoc.
        -- simpl in Hrun. rewrite Hm, Ha in Hrun.
           destruct (supported info), (allow_unsupported query); simpl in *; discriminate.
      * rewrite (search_remotes_scan _ _ _ _ _ _ _ _ Hm Ha) in Hrun.
        destruct (IH _ _ _ _ Hrun) as (per & Hper & Hserved & ->).
        exists (scan_products query key remote (products manifest) ∅ [] :: per).
        split; [|split].
        -- constructor; [|done]. apply Forall_forall. intros p Hp.
           by destruct (scan_products_sound _ _ _ _ _ _ Hp) as (entry & Hin & -> & Hq).
        -- simpl. apply Forall_app. split; [|by eapply Hlater].
           apply Forall_forall. intros p Hp.
           destruct (scan_products_sound _ _ _ _ _ _ Hp) as (entry & Hin & -> & Hq).
           exists entry. split; [|done]. exists manifest.
           split; [by eapply visited_here|]. right. split; [done|].
           unfold hash_match in Hq. by apply andb_prop in Hq as [? _].
        -- simpl. by rewrite <- app_assoc.
Qed.

(** When no searched remote answers the key as an alias, the loop returns
    the hash-prefix scans of the manifests it obtained, one after another. *)
Lemma search_remotes_searched query key rs h ms h' :
  searched query key rs h ms h' ->
  forall images,
    search_remotes query key rs images h
    = (inr (images ++ concat (map (fun rm => scan_products query key (fst rm)
                                               (products (snd rm)) ∅ []) ms)), h').
Proof.
  induction 1 as [h | remote rest h h1 manifest ms h' Hm Ha _ IH
                    | remote rest h h1 what ms h' Hm Hpin _ IH]; intros images.
  - simpl. by rewrite app_nil_r.
  - rewrite (search_remotes_scan _ _ _ _ _ _ _ _ Hm Ha), IH. simpl.
    by rewrite <- app_assoc.
  - rewrite (search_remotes_unsupported _ _ _ _ _ _ _ _ Hm).
    destruct (decide _); [apply IH | done].
Qed.

Lemma all_info_for_checked query h :
  check_alias_is_supported (key_from (release query)) (remote_name query) = inr tt ->
  all_info_for query h
  = search_remotes query (key_from (release query)) (remotes_to_search query) [] h.
Proof.
  intros Hc. unfold ImageHost.all_info_for, bind, lift. by rewrite Hc.
Qed.

Lemma all_info_for_inr query h images h' :
  all_info_for query h = (inr images, h') ->
  search_remotes query (key_from (release query)) (remotes_to_search query) [] h
  = (inr images, h').
Proof.
  unfold ImageHost.all_info_for, bind, lift.
  destruct (check_alias_is_supported _ _) as [e|[]]; [discriminate | done].
Qed.

Lemma remotes_to_search_spec query :
  remotes_to_search query
  = if decide (remote_name query = "")
    then [release_remote; daily_remote]
    else [remote_name query].
Proof.
  unfold remotes_to_search.
  destruct (String.eqb_spec (remote_name query) ""), (decide (remote_name query = "")); done.
Qed.

(** *** What [info_for] makes of the accumulated matches *)

Lemma info_for_of_matches query h images h' :
  all_info_for query h = (inr images, h') ->
  info_for query h
  = match images with
    | [] => (inr None, h')
    | front :: _ =>
        if (1 <? length images)%nat
           && negb (String.eqb (key_from (release query)) (id (snd front)))
           && String.prefix (key_from (release query)) (id (snd front))
        then (inl (too_many_images query), h')
        else (inr (Some (snd front)), h')
    end.
Proof.
  intros Hall. unfold ImageHost.info_for, bind. rewrite Hall.
  destruct images as [|front rest]; [done|].
  by destruct (_ && _ && _).
Qed.

Lemma info_for_propagates query h e h' :
  all_info_for query h = (inl e, h') -> info_for query h = (inl e, h').
Proof. intros Hall. unfold ImageHost.info_for, bind. by rewrite Hall. Qed.

(** C10. Whenever the first match accumulated by [all_info_for] is an alias
    match, that is a record whose content-id does not start with the
    normalized lookup key, [info_for] returns that first record without
    error, however many further matches follow; and an exception that
    [info_for] raises on its own account, which can only be the ambiguity
    error, requires two or more matches the first of which has a content-id
    that starts with the lookup key and differs from it. *)
Theorem info_for_first_alias_match_wins query h :
  (forall remote info more h',
     all_info_for query h = (inr ((remote, info) :: more), h') ->
     String.prefix (key_from (release query)) (id info) = false ->
     info_for query h = (inr (Some info), h')) /\
  (forall e h',
     info_for query h = (inl e, h') ->
     all_info_for query h = (inl e, h') \/
     (e = too_many_images query /\
      exists remote info more,
        all_info_for query h = (inr ((remote, info) :: more), h') /\
        more <> [] /\
        String.prefix (key_from (release query)) (id info) = true /\
        key_from (release query) <> id info)).
Proof.
  split.
  - intros remote info more h' Hall Hpre.
    rewrite (info_for_of_matches _ _ _ _ Hall). simpl. rewrite Hpre.
    by rewrite andb_false_r.
  - intros e h' Hinfo.
    destruct (all_info_for query h) as [[e0|images] h0] eqn:Hall.
    + rewrite (info_for_propagates _ _ _ _ Hall) in Hinfo. left. congruence.
    + right. rewrite (info_for_of_matches _ _ _ _ Hall) in Hinfo.
      destruct images as [|[remote info] more]; [discriminate|].
      simpl in Hinfo.
      destruct (String.eqb_spec (key_from (release query)) (id info)) as [Heq|Hne];
        destruct (String.prefix (key_from (release query)) (id info)) eqn:Hpre;
        destruct more as [|next more]; simpl in Hinfo; try discriminate.
      injection Hinfo as <- <-. split; [done|].
      exists remote, info, (next :: more). done.
Qed.





(** The loop reaches the next remote exactly when the remote at hand
    contributes: that contribution is added to the matches, and the loop
    goes on from the state it left. *)
Lemma search_remotes_step query key remote rest images h out h' :
  search_remotes query key (remote :: rest) images h = (inr out, h') <->
  exists block h1,
    contributes query key remote h block h1 /\
    search_remotes query key rest (images ++ block) h1 = (inr out, h').
Proof.
  split.
  - intros Hrun. destruct (manifest_from remote h) as [[e|manifest] h1] eqn:Hm.
    + destruct e; try (simpl in Hrun; rewrite Hm in Hrun; discriminate).
      rewrite (search_remotes_unsupported _ _ _ _ _ _ _ _ Hm) in Hrun.
      destruct (decide _) as [Hany|]; [|discriminate].
      exists [], h1. rewrite app_nil_r. split; [by eapply contributes_skip | done].
    + destruct (match_alias key manifest) as [info|] eqn:Ha.
      * destruct (supported info || allow_unsupported query) eqn:Hs.
        -- rewrite (search_remotes_alias _ _ _ _ _ _ _ _ _ Hm Ha Hs) in Hrun.
           exists [(remote, resolve remote info)], h1.
           split; [by eapply contributes_alias | done].
        -- simpl in Hrun. rewrite Hm, Ha in Hrun.
           destruct (supported info), (allow_unsupported query); simpl in *; discriminate.
      * rewrite (search_remotes_scan _ _ _ _ _ _ _ _ Hm Ha) in Hrun.
        exists (scan_products query key remote (products manifest) ∅ []), h1.
        split; [by eapply contributes_scan | done].
  - intros (block & h1 & Hblock & Hrun).
    destruct Hblock as [manifest h1 info Hm Ha Hs | manifest h1 Hm Ha | what h1 Hm Hany].
    + by rewrite (search_remotes_alias _ _ _ _ _ _ _ _ _ Hm Ha Hs).
    + by rewrite (search_remotes_scan _ _ _ _ _ _ _ _ Hm Ha).
    + rewrite (search_remotes_unsupported _ _ _ _ _ _ _ _ Hm).
      destruct (decide _); [|done]. by rewrite app_nil_r in Hrun.
Qed.

(** [all_info_for] succeeds exactly when the alias check passes and the loop
    over the remotes to search succeeds. *)
Lemma all_info_for_succeeds query h images h' :
  all_info_for query h = (inr images, h') <->
  check_alias_is_supported (key_from (release query)) (remote_name query) = inr tt /\
  search_remotes query (key_from (release query)) (remotes_to_search query) [] h
  = (inr images, h').
Proof.
  split.
  - intros Hrun. split; [|by apply all_info_for_inr].
    revert Hrun. unfold ImageHost.all_info_for, bind, lift.
    by destruct (check_alias_is_supported _ _) as [e|[]].
  - intros [Hcheck Hrun]. by rewrite (all_info_for_checked _ _ Hcheck).
Qed.

(** C5. A query with a non-empty [remote_name] searches exactly that one
    remote: [all_info_for] returns what that remote contributes, and leaves
    the host as obtaining that one manifest left it.  A query with an empty
    [remote_name] searches the release remote and then the daily remote:
    [all_info_for] returns what the release remote contributes followed by
    what the daily remote contributes, the daily manifest being obtained in
    the state the release remote left.  In both cases the matches are the
    concatenation of one block per remote searched, in that order, each
    block holding only matches named after its remote. *)
Theorem all_info_for_remote_order query :
  (remote_name query <> "" -> remotes_to_search query = [remote_name query]) /\
  (remote_name query = "" -> remotes_to_search query = [release_remote; daily_remote]) /\
  (forall h images h',
     all_info_for query h = (inr images, h') ->
     exists per_remote,
       Forall2 (fun remote found => Forall (fun p => fst p = remote) found)
               (remotes_to_search query) per_remote /\
       images = concat per_remote) /\
  (remote_name query <> "" ->
   forall h images h',
     all_info_for query h = (inr images, h') <->
     check_alias_is_supported (key_from (release query)) (remote_name query) = inr tt /\
     contributes query (key_from (release query)) (remote_name query) h images h') /\
  (remote_name query = "" ->
   forall h images h',
     all_info_for query h = (inr images, h') <->
     check_alias_is_supported (key_from (release query)) (remote_name query) = inr tt /\
     exists from_release h1 from_daily,
       contributes query (key_from (release query)) release_remote h from_release h1 /\
       contributes query (key_from (release query)) daily_remote h1 from_daily h' /\
       images = from_release ++ from_daily).
Proof.
  split; [|split; [|split; [|split]]].
  - intros Hpin. rewrite remotes_to_search_spec. by destruct (decide _).
  - intros Hany. rewrite remotes_to_search_spec. by destruct (decide _).
  - intros h images h' Hall. apply all_info_for_inr in Hall.
    destruct (search_remotes_blocks _ _ _ _ _ _ _ Hall) as (per & Hper & _ & ->).
    by exists per.
  - intros Hpin h images h'. rewrite all_info_for_succeeds, remotes_to_search_spec.
    destruct (decide _); [done|]. rewrite search_remotes_step. split.
    + intros [Hcheck (block & h1 & Hblock & Hend)]. injection Hend as <- <-. done.
    + intros [Hcheck Hblock]. split; [done|]. by exists images, h'.
  - intros Hany h images h'. rewrite all_info_for_succeeds, remotes_to_search_spec.
    destruct (decide _); [|done]. rewrite search_remotes_step. split.
    + intros [Hcheck (from_release & h1 & Hrelease & Hrest)].
      apply search_remotes_step in Hrest as (from_daily & h2 & Hdaily & Hend).
      injection Hend as <- <-.
      split; [done|]. by exists from_release, h1, from_daily.
    + intros [Hcheck (from_release & h1 & from_daily & Hrelease & Hdaily & ->)].
      split; [done|]. exists from_release, h1. split; [done|].
      apply search_remotes_step. by exists from_daily, h'.
Qed.

(** The loop never lets an [UnsupportedRemoteException] out when the query
    pins no remote. *)
Lemma search_remotes_swallows query key rs :
  remote_name query = "" ->
  forall images h what h',
    search_remotes query key rs images h <> (inl (UnsupportedRemoteException what), h').
Proof.
  intros Hany. induction rs as [|remote rest IH]; intros images h what h'; [done|].
  destruct (manifest_from remote h) as [[e|manifest] h1] eqn:Hm.
  - destruct e; try (simpl; rewrite Hm; congruence).
    rewrite (search_remotes_unsupported _ _ _ _ _ _ _ _ Hm).
    destruct (decide _); [apply IH | done].
  - destruct (match_alias key manifest) as [info|] eqn:Ha.
    + destruct (supported info || allow_unsupported query) eqn:Hs.
      * rewrite (search_remotes_alias _ _ _ _ _ _ _ _ _ Hm Ha Hs). apply IH.
      * simpl. rewrite Hm, Ha.
        destruct (supported info), (allow_unsupported query); simpl in *; congruence.
    + rewrite (search_remotes_scan _ _ _ _ _ _ _ _ Hm Ha). apply IH.
Qed.

(** C6. An [UnsupportedRemoteException] raised while a remote's manifest is
    obtained is swallowed, and the loop goes on with the next remote, when the
    query pins no remote, so that no such exception leaves [all_info_for];
    when the query pins the remote, the exception is raised again to the
    caller. *)
Theorem unsupported_remote_swallowed_unless_pinned query h :
  check_alias_is_supported (key_from (release query)) (remote_name query) = inr tt ->
  (remote_name query = "" ->
     (forall remote rest images h0 what h1,
        manifest_from remote h0 = (inl (UnsupportedRemoteException what), h1) ->
        search_remotes query (key_from (release query)) (remote :: rest) images h0
        = search_remotes query (key_from (release query)) rest images h1) /\
     (forall what h1,
        manifest_from release_remote h = (inl (UnsupportedRemoteException what), h1) ->
        all_info_for query h
        = search_remotes query (key_from (release query)) [daily_remote] [] h1) /\
     (forall what h', all_info_for query h <> (inl (UnsupportedRemoteException what), h'))) /\
  (remote_name query <> "" ->
     forall what h1,
       manifest_from (remote_name query) h = (inl (UnsupportedRemoteException what), h1) ->
       all_info_for query h = (inl (UnsupportedRemoteException what), h1)).
Proof.
  intros Hcheck. rewrite (all_info_for_checked _ _ Hcheck), remotes_to_search_spec.
  split.
  - intros Hany. destruct (decide _); [|done]. split; [|split].
    + intros remote rest images h0 what h1 Hm.
      rewrite (search_remotes_unsupported _ _ _ _ _ _ _ _ Hm). by destruct (decide _).
    + intros what h1 Hm.
      rewrite (search_remotes_unsupported _ _ _ _ _ _ _ _ Hm). by destruct (decide _).
    + intros what h'. by apply search_remotes_swallows.
  - intros Hpin what h1 Hm. destruct (decide _); [done|].
    rewrite (search_remotes_unsupported _ _ _ _ _ _ _ _ Hm). by destruct (decide _).
Qed.

Lemma find_full_hash_Some full_hash (ms : list (string * SimpleStreamsManifest)) info :
  find_full_hash full_hash ms = Some info ->
  exists remote manifest stored,
    (remote, manifest) ∈ ms /\ stored ∈ products manifest /\ id stored = full_hash /\
    info = resolve remote stored.
Proof.
  induction ms as [|[remote manifest] ms IH]; simpl; [done|].
  destruct (find _ (products manifest)) as [product|] eqn:Hfind.
  - intros [= <-]. apply find_some in Hfind as [Hin Heq].
    exists remote, manifest, product.
    split; [left | split; [by apply list_elem_of_In | split; [by apply String.eqb_eq | done]]].
  - intros Hrest. destruct (IH Hrest) as (r & m & stored & Hin & Hrem).
    exists r, m, stored. split; [by right | done].
Qed.

(** C4. While the manifests the host holds are those of configured remotes
    (as [fetch_manifests] leaves them, and as long as the refresh keeps them
    so), every record that [all_info_for], [info_for],
    [info_for_full_hash_impl] or [all_images_for] returns is a record stored
    in a manifest of the remote that serves it, with its image, kernel and
    initrd locations prefixed, exactly once, by the base URL that [remotes]
    configures for that remote, and nothing else changed. *)
Theorem locations_resolved_at_boundary :
  (forall h0, known_remotes h0 -> known_remotes (snd (update_manifests h0))) ->
  (forall query h images h',
     known_remotes h ->
     all_info_for query h = (inr images, h') ->
     Forall (fun p => exists stored,
                 served (key_from (release query)) (remotes_to_search query) h (fst p) stored /\
                 resolved_once (fst p) stored (snd p)) images) /\
  (forall query h info h',
     known_remotes h ->
     info_for query h = (inr (Some info), h') ->
     exists remote stored,
       served (key_from (release query)) (remotes_to_search query) h remote stored /\
       resolved_once remote stored info) /\
  (forall full_hash h info h',
     known_remotes h ->
     info_for_full_hash_impl full_hash h = (inr info, h') ->
     exists remote manifest stored,
       (remote, manifest) ∈ manifests h /\ stored ∈ products manifest /\
       id stored = full_hash /\ resolved_once remote stored info) /\
  (forall remote allow h images h',
     known_remotes h ->
     all_images_for remote allow h = (inr images, h') ->
     exists manifest,
       manifest_from remote h = (inr manifest, h') /\
       Forall (fun info => exists stored,
                   stored ∈ products manifest /\ resolved_once remote stored info) images).
Proof.
  intros Hupdate.
  assert (Hall : forall query h images h',
             known_remotes h ->
             all_info_for query h = (inr images, h') ->
             Forall (fun p => exists stored,
                         served (key_from (release query)) (remotes_to_search query) h
                           (fst p) stored /\
                         resolved_once (fst p) stored (snd p)) images).
  { intros query h images h' Hknown Hrun. apply all_info_for_inr in Hrun.
    destruct (search_remotes_blocks _ _ _ _ _ _ _ Hrun) as (per & _ & Hserved & ->). simpl.
    eapply Forall_impl; [exact Hserved|]. intros [r info] (stored & Hstored & Hinfo).
    simpl in *. exists stored. split; [done|]. rewrite Hinfo.
    apply resolved_once_intro. destruct Hstored as (manifest & Hvisited & _).
    by apply (visited_known _ _ _ _ Hupdate Hknown Hvisited). }
  split; [exact Hall | split; [|split]].
  - intros query h info h' Hknown Hinfo.
    destruct (all_info_for query h) as [[e|images] h0] eqn:Hrun.
    + by rewrite (info_for_propagates _ _ _ _ Hrun) in Hinfo.
    + rewrite (info_for_of_matches _ _ _ _ Hrun) in Hinfo.
      destruct images as [|[remote front] more]; [discriminate|].
      destruct (_ && _ && _); [discriminate|]. injection Hinfo as <- <-.
      apply Hall in Hrun; [|done]. apply Forall_cons in Hrun as [(stored & Hserved & Hres) _].
      by exists remote, stored.
  - intros full_hash h info h' Hknown. unfold ImageHost.info_for_full_hash_impl.
    destruct (find_full_hash full_hash (manifests h)) as [found|] eqn:Hfind; [|discriminate].
    intros [= <- <-].
    destruct (find_full_hash_Some _ _ _ Hfind)
      as (remote & manifest & stored & Hin & Hp & Hid & ->).
    exists remote, manifest, stored. repeat (split; [done|]). apply resolved_once_intro.
    unfold ImageHost.known_remotes in Hknown. rewrite Forall_forall in Hknown.
    by apply (Hknown (remote, manifest)).
  - intros remote allow h images h' Hknown. unfold ImageHost.all_images_for, bind.
    destruct (manifest_from remote h) as [[e|manifest] h1] eqn:Hm; [discriminate|].
    destruct (map _ _) as [|first more] eqn:Hmap; [discriminate|].
    intros [= <- <-]. exists manifest. split; [done|].
    rewrite <- Hmap. apply Forall_forall. intros info Hin.
    apply list_elem_of_fmap in Hin as (stored & -> & Hstored).
    apply list_elem_of_filter in Hstored as [_ Hstored].
    exists stored. split; [done | apply resolved_once_intro].
    by apply (proj2 (manifest_from_known _ _ _ _ Hupdate Hknown Hm) manifest).
Qed.

End Resolver.

Import ImageHostExamples.

Example all_info_for_alias_then_hashes :
  all_info_for sample_remotes any_alias any_remote fresh query_ab alias_then_hashes
  = (inr [("release", resolved "release" release_ab);
          ("daily", resolved "daily" daily_ab11);
          ("daily", resolved "daily" daily_ab22)], alias_then_hashes).
Proof. vm_compute. reflexivity. Qed.

Example info_for_hashes_only :
  info_for sample_remotes any_alias any_remote fresh query_ab hashes_only
  = (inl (too_many_images query_ab), hashes_only).
Proof. vm_compute. reflexivity. Qed.

Example all_info_for_hashes_only :
  all_info_for sample_remotes any_alias any_remote fresh query_ab hashes_only
  = (inr [("release", resolved "release" daily_ab11);
          ("daily", resolved "daily" daily_ab22)], hashes_only).
Proof. vm_compute. reflexivity. Qed.

Example all_info_for_pinned_daily :
  all_info_for sample_remotes any_alias any_remote fresh query_daily_ab alias_then_hashes
  = (inr [("daily", resolved "daily" daily_ab11);
          ("daily", resolved "daily" daily_ab22)], alias_then_hashes).
Proof. vm_compute. reflexivity. Qed.

Example all_info_for_jammy :
  all_info_for sample_remotes any_alias any_remote fresh query_jammy alias_then_hashes
  = (inr [("daily", resolved "daily" daily_ab11)], alias_then_hashes).
Proof. vm_compute. reflexivity. Qed.

Example all_info_for_exact_hash :
  all_info_for sample_remotes any_alias any_remote fresh
    {| release := "ab11"; remote_name := ""; allow_unsupported := false |}
    {| manifests := [("release", sample_manifest [daily_ab11]);
                     ("daily", sample_manifest [daily_ab11])];
       world := tt |}
  = (inr [("release", resolved "release" daily_ab11);
          ("daily", resolved "daily" daily_ab11)],
     {| manifests := [("release", sample_manifest [daily_ab11]);
                      ("daily", sample_manifest [daily_ab11])];
        world := tt |}).
Proof. vm_compute. reflexivity. Qed.



Lemma info_for_first_alias_match_wins_witness :
  info_for sample_remotes any_alias any_remote fresh query_ab alias_then_hashes
  = (inr (Some (resolved "release" release_ab)), alias_then_hashes).
Proof.
  apply (proj1 (info_for_first_alias_match_wins sample_remotes any_alias any_remote fresh
                  query_ab alias_then_hashes)
           "release" _ [("daily", resolved "daily" daily_ab11);
                        ("daily", resolved "daily" daily_ab22)]).
  - vm_compute. reflexivity.
  - reflexivity.
Defined.

Lemma all_info_for_remote_order_witness :
  remotes_to_search query_daily_ab = ["daily"] /\
  remotes_to_search query_ab = ["release"; "daily"] /\
  (exists per_remote,
     Forall2 (fun remote found => Forall (fun p => fst p = remote) found)
             (remotes_to_search query_ab) per_remote /\
     [("release", resolved "release" release_ab);
      ("daily", resolved "daily" daily_ab11);
      ("daily", resolved "daily" daily_ab22)] = concat per_remote) /\
  all_info_for sample_remotes any_alias any_remote fresh query_daily_ab alias_then_hashes
  = (inr [("daily", resolved "daily" daily_ab11); ("daily", resolved "daily" daily_ab22)],
     alias_then_hashes) /\
  all_info_for sample_remotes any_alias any_remote fresh query_ab alias_then_hashes
  = (inr ([("release", resolved "release" release_ab)]
          ++ [("daily", resolved "daily" daily_ab11);
              ("daily", resolved "daily" daily_ab22)]),
     alias_then_hashes).
Proof.
  split; [|split; [|split; [|split]]].
  - apply (proj1 (all_info_for_remote_order sample_remotes any_alias any_remote fresh
                    query_daily_ab)).
    discriminate.
  - apply (proj1 (proj2 (all_info_for_remote_order sample_remotes any_alias any_remote fresh
                           query_ab))).
    reflexivity.
  - apply (proj1 (proj2 (proj2 (all_info_for_remote_order sample_remotes any_alias
                                  any_remote fresh query_ab)))
             alias_then_hashes _ alias_then_hashes).
    vm_compute. reflexivity.
  - apply (proj1 (proj2 (proj2 (proj2 (all_info_for_remote_order sample_remotes any_alias
                                         any_remote fresh query_daily_ab))))
             ltac:(discriminate)).
    split; [reflexivity|].
    apply (contributes_scan sample_remotes any_remote fresh query_daily_ab "ab" "daily"
             alias_then_hashes (sample_manifest [daily_ab11; daily_ab22]) alias_then_hashes);
      reflexivity.
  - apply (proj2 (proj2 (proj2 (proj2 (all_info_for_remote_order sample_remotes any_alias
                                         any_remote fresh query_ab))))
             eq_refl).
    split; [reflexivity|].
    exists [("release", resolved "release" release_ab)], alias_then_hashes,
      [("daily", resolved "daily" daily_ab11); ("daily", resolved "daily" daily_ab22)].
    split; [|split; [|reflexivity]].
    + apply (contributes_alias sample_remotes any_remote fresh query_ab "ab" "release"
               alias_then_hashes (sample_manifest [release_ab]) alias_then_hashes release_ab);
        reflexivity.
    + apply (contributes_scan sample_remotes any_remote fresh query_ab "ab" "daily"
               alias_then_hashes (sample_manifest [daily_ab11; daily_ab22])
               alias_then_hashes);
        reflexivity.
Defined.

Lemma unsupported_remote_swallowed_unless_pinned_witness :
  all_info_for sample_remotes any_alias no_release fresh query_ab hashes_only
  = (inr [("daily", resolved "daily" daily_ab22)], hashes_only) /\
  all_info_for sample_remotes any_alias no_release fresh query_release_ab hashes_only
  = (inl (UnsupportedRemoteException "release"), hashes_only).
Proof.
  split.
  - rewrite (proj1 (proj2 (proj1 (unsupported_remote_swallowed_unless_pinned
                       sample_remotes any_alias no_release fresh query_ab hashes_only
                       eq_refl) eq_refl)) "release" hashes_only eq_refl).
    vm_compute. reflexivity.
  - apply (proj2 (unsupported_remote_swallowed_unless_pinned
                    sample_remotes any_alias no_release fresh query_release_ab hashes_only
                    eq_refl)).
    + discriminate.
    + reflexivity.
Defined.

Lemma locations_resolved_at_boundary_witness :
  Forall (fun p => exists stored,
              served any_remote fresh (key_from (release query_ab))
                (remotes_to_search query_ab) alias_then_hashes (fst p) stored /\
              resolved_once sample_remotes (fst p) stored (snd p))
    [("release", resolved "release" release_ab);
     ("daily", resolved "daily" daily_ab11);
     ("daily", resolved "daily" daily_ab22)].
Proof.
  apply (proj1 (locations_resolved_at_boundary sample_remotes any_alias any_remote
                  all_aliases fresh (fun h0 Hknown => Hknown))
           query_ab alias_then_hashes _ alias_then_hashes).
  - unfold known_remotes, supported_remotes. simpl.
    constructor; [left | constructor; [right; left | constructor]].
  - vm_compute. reflexivity.
Defined.

Example resolved_release_ab_image :
  image_location (resolved "release" release_ab)
  = "https://cloud-images.example/releases/ab/current/disk.img".
Proof. reflexivity. Qed.

End ImageHostFacts.

(** * Properties of the catalog cache *)
Module CatalogCacheFacts.
Import CatalogCache.

Section Cache.

Context {Data : Type}.
Variable fetch : string -> Z -> Exception + Data.
Variable recoverable : Exception -> bool.
Variable report : Exception -> string.

Local Abbreviation refetch := (CatalogCache.refetch fetch recoverable report).
Local Abbreviation refresh := (CatalogCache.refresh fetch recoverable report).
Local Abbreviation refresh_all := (CatalogCache.refresh_all fetch recoverable report).
Local Abbreviation ensure_fresh := (CatalogCache.ensure_fresh fetch recoverable report).

Lemma fetch_count_snoc key (cache : Cache Data) key' now
    (entries' : gmap string (Entry Data)) log' :
  fetch_count key
    {| ttl := ttl cache; entries := entries'; fetches := fetches cache ++ [(key', now)];
       log := log' |}
  = if decide (key' = key) then S (fetch_count key cache) else fetch_count key cache.
Proof.
  unfold fetch_count. simpl. rewrite filter_app, length_app.
  rewrite filter_cons, filter_nil. simpl.
  destruct (decide (key' = key)); simpl; lia.
Qed.

(** A fetch, whatever its outcome, is one more fetch for its key, and keeps
    the TTL. *)
Lemma refetch_counts key now (cache : Cache Data) :
  fetch_count key (snd (refetch key now cache)) = S (fetch_count key cache) /\
  ttl (snd (refetch key now cache)) = ttl cache.
Proof.
  unfold CatalogCache.refetch.
  destruct (fetch key now) as [e|fetched]; [destruct (recoverable e)|]; simpl;
    rewrite fetch_count_snoc; by destruct (decide (key = key)).
Qed.

Lemma refetch_stores key now (cache : Cache Data) fetched :
  fetch key now = inr fetched ->
  fst (refetch key now cache) = inr tt /\
  entries (snd (refetch key now cache)) !! key = Some (mkEntry fetched now).
Proof.
  intros Hfetch. unfold CatalogCache.refetch. rewrite Hfetch. simpl.
  split; [done | apply lookup_insert_eq].
Qed.

(** A refresh request for another key leaves the entry, the fetch count and
    the TTL of [key] as they were. *)
Lemma refresh_other key key' now (cache : Cache Data) :
  key' <> key ->
  entries (snd (refresh key' now cache)) !! key = entries cache !! key /\
  fetch_count key (snd (refresh key' now cache)) = fetch_count key cache /\
  ttl (snd (refresh key' now cache)) = ttl cache.
Proof.
  intros Hne.
  assert (Hre : entries (snd (refetch key' now cache)) !! key = entries cache !! key /\
                fetch_count key (snd (refetch key' now cache)) = fetch_count key cache /\
                ttl (snd (refetch key' now cache)) = ttl cache).
  { unfold CatalogCache.refetch.
    destruct (fetch key' now) as [e|fetched]; [destruct (recoverable e)|]; simpl;
      rewrite fetch_count_snoc; destruct (decide (key' = key)); try done.
    split; [by apply lookup_insert_ne | done]. }
  unfold CatalogCache.refresh.
  destruct (entries cache !! key') as [entry|]; [|exact Hre].
  destruct (expired cache entry now); [exact Hre | done].
Qed.

Lemma refresh_all_other key requests :
  Forall (fun request => fst request <> key) requests ->
  forall (cache : Cache Data),
    entries (snd (refresh_all requests cache)) !! key = entries cache !! key /\
    fetch_count key (snd (refresh_all requests cache)) = fetch_count key cache /\
    ttl (snd (refresh_all requests cache)) = ttl cache.
Proof.
  induction 1 as [|[key' now] rest Hne _ IH]; intros cache; [done|].
  simpl in *. unfold bind.
  destruct (refresh_other key key' now cache Hne) as (He & Hc & Ht).
  destruct (refresh key' now cache) as [[e|[]] cache1]; simpl in *; [done|].
  destruct (IH cache1) as (He' & Hc' & Ht'). by rewrite He', Hc', Ht'.
Qed.

(** A request within the TTL of the entry fetches nothing and changes
    nothing. *)
Lemma refresh_fresh key now (cache : Cache Data) entry :
  entries cache !! key = Some entry ->
  (now - last_fetch_timestamp entry < ttl cache)%Z ->
  refresh key now cache = (inr tt, cache).
Proof.
  intros Hentry Hfresh. unfold CatalogCache.refresh, expired. rewrite Hentry.
  destruct (Z.leb_spec (ttl cache) (now - last_fetch_timestamp entry)); [lia | done].
Qed.

(** A request with no entry, or with an entry as old as the TTL or older,
    makes one fetch. *)
Lemma refresh_due key now (cache : Cache Data) :
  match entries cache !! key with
  | None => True
  | Some entry => (ttl cache <= now - last_fetch_timestamp entry)%Z
  end ->
  refresh key now cache = refetch key now cache.
Proof.
  intros Hdue. unfold CatalogCache.refresh, expired.
  destruct (entries cache !! key) as [entry|]; [|done].
  destruct (Z.leb_spec (ttl cache) (now - last_fetch_timestamp entry)); [done | lia].
Qed.

(** C3. For every catalog key whose entry is absent or expired at time
    [t1], and whose fetch then succeeds: the refresh request at [t1] and a
    second request at [t2] within the TTL window of that fetch make exactly
    one network fetch for the key between them, and a request at [t3], once
    the TTL has expired, makes a second one.  Requests for other keys, made
    in between, change nothing of this. *)
Theorem refresh_fetches_once_per_ttl_window
    key t1 t2 t3 fetched between later (cache : Cache Data) :
  match entries cache !! key with
  | None => True
  | Some entry => (ttl cache <= t1 - last_fetch_timestamp entry)%Z
  end ->
  fetch key t1 = inr fetched ->
  Forall (fun request => fst request <> key) between ->
  Forall (fun request => fst request <> key) later ->
  (t2 - t1 < ttl cache)%Z ->
  (ttl cache <= t3 - t1)%Z ->
  let first := snd (refresh key t1 cache) in
  let second := snd (refresh key t2 (snd (refresh_all between first))) in
  let third := snd (refresh key t3 (snd (refresh_all later second))) in
  fetch_count key first = S (fetch_count key cache) /\
  fetch_count key second = S (fetch_count key cache) /\
  fetch_count key third = S (S (fetch_count key cache)).
Proof.
  intros Hdue Hfetch Hbetween Hlater Hwindow Hexpired first second third.
  assert (Hfirst : entries first !! key = Some (mkEntry fetched t1) /\
                   fetch_count key first = S (fetch_count key cache) /\
                   ttl first = ttl cache).
  { subst first. rewrite (refresh_due _ _ _ Hdue).
    destruct (refetch_stores key t1 cache fetched Hfetch) as [_ Hstored].
    destruct (refetch_counts key t1 cache) as [Hcount Httl]. done. }
  destruct Hfirst as (Hentry1 & Hcount1 & Httl1).
  destruct (refresh_all_other key between Hbetween first) as (He & Hc & Ht).
  assert (Hsecond : second = snd (refresh_all between first)).
  { subst second. erewrite refresh_fresh; [done | by rewrite He, Hentry1 |].
    simpl. rewrite Ht, Httl1. lia. }
  destruct (refresh_all_other key later Hlater second) as (He' & Hc' & Ht').
  split; [done|]. split; [by rewrite Hsecond, Hc|].
  subst third. rewrite refresh_due.
  - destruct (refetch_counts key t3 (snd (refresh_all later second))) as [-> _].
    by rewrite Hc', Hsecond, Hc, Hcount1.
  - rewrite He', Hsecond, He, Hentry1. simpl. rewrite <- Hsecond, Ht', Hsecond, Ht, Httl1. lia.
Qed.

End Cache.

(** A network that always answers, and a cache with a TTL of ten: requests
    for the release catalog at times 0, 5 and 10, with requests for the daily
    catalog in between. *)
Lemma refresh_fetches_once_per_ttl_window_witness :
  let network (key : string) (now : Z) : Exception + Z := inr now in
  let run := refresh network (fun _ => true) (fun _ => "fetch failed") in
  let run_all := refresh_all network (fun _ => true) (fun _ => "fetch failed") in
  let first := snd (run "release" 0%Z (empty 10)) in
  let second := snd (run "release" 5%Z (snd (run_all [("daily", 3%Z)] first))) in
  let third := snd (run "release" 10%Z (snd (run_all [("daily", 7%Z)] second))) in
  fetch_count "release" first = 1 /\
  fetch_count "release" second = 1 /\
  fetch_count "release" third = 2.
Proof.
  apply (refresh_fetches_once_per_ttl_window
           (fun (key : string) (now : Z) => inr now) (fun _ => true) (fun _ => "fetch failed")
           "release" 0%Z 5%Z 10%Z 0%Z [("daily", 3%Z)] [("daily", 7%Z)] (empty 10)).
  - exact I.
  - reflexivity.
  - repeat constructor; discriminate.
  - repeat constructor; discriminate.
  - simpl. lia.
  - simpl. lia.
Defined.

End CatalogCacheFacts.

(** * Properties of the blueprint provider *)
Module BlueprintFacts.
Import CatalogCache Blueprint.

(** *** The resource constraint merger *)

Lemma at_least_unset field minimum : at_least field minimum 0 = inr minimum.
Proof. reflexivity. Qed.

Lemma at_least_below field minimum current :
  current <> 0%Z -> (current < minimum)%Z ->
  at_least field minimum current = inl (BlueprintMinimumException field current minimum).
Proof.
  intros Hset Hbelow. unfold at_least, unset.
  destruct (Z.eqb_spec current 0); [done|].
  destruct (Z.ltb_spec current minimum); [done | lia].
Qed.

Lemma at_least_enough field minimum current :
  current <> 0%Z -> (minimum <= current)%Z ->
  at_least field minimum current = inr current.
Proof.
  intros Hset Henough. unfold at_least, unset.
  destruct (Z.eqb_spec current 0); [done|].
  destruct (Z.ltb_spec current minimum); [lia | done].
Qed.

(** The value a field ends with when its minimum is met or it is unset. *)
Lemma at_least_satisfied field minimum current :
  current = 0%Z \/ (minimum <= current)%Z ->
  at_least field minimum current = inr (if decide (current = 0%Z) then minimum else current).
Proof.
  intros Hok. destruct (decide (current = 0%Z)) as [-> | Hset].
  - apply at_least_unset.
  - apply at_least_enough; [done | by destruct Hok].
Qed.

Section Provider.

Context {Archive : Type}.
Variable download_to : string -> Z -> Exception + Archive.
Variable zip_archive_for : Archive -> Exception + gmap string Document.

Local Abbreviation fetch_blueprints := (Blueprint.fetch_blueprints download_to zip_archive_for).
Local Abbreviation update_blueprints := (Blueprint.update_blueprints download_to zip_archive_for).
Local Abbreviation construct := (Blueprint.construct download_to zip_archive_for).
Local Abbreviation info_for := (Blueprint.info_for download_to zip_archive_for).
Local Abbreviation fetch_blueprint_for :=
  (Blueprint.fetch_blueprint_for download_to zip_archive_for).


(** What [fetch_blueprint_for] does once the bundle is refreshed and the
    document found. *)
Lemma fetch_blueprint_for_found name now provider vm_desc document provider' :
  (update_blueprints now ;;; at_name name) provider = (inr document, provider') ->
  fetch_blueprint_for name now (provider, vm_desc)
  = (fst (merge_blueprint name (arch provider') document vm_desc),
     (provider', snd (merge_blueprint name (arch provider') document vm_desc))).
Proof.
  intros Hfound. unfold Blueprint.fetch_blueprint_for. simpl. rewrite Hfound.
  by destruct (merge_blueprint _ _ _ _).
Qed.

(** One minimum of the blueprint, merged: it fails when the description
    holds an explicit value below it, and otherwise raises an unset value. *)
Lemma merge_minimum_below field invalid least read write vm_desc :
  read vm_desc <> 0%Z -> (read vm_desc < least)%Z ->
  merge_minimum field invalid (Scalar least) read write vm_desc
  = (inl (BlueprintMinimumException field (read vm_desc) least), vm_desc).
Proof.
  intros Hset Hbelow. unfold merge_minimum. by rewrite (at_least_below _ _ _ Hset Hbelow).
Qed.

Lemma merge_minimum_met field invalid minimum read write vm_desc :
  minimum <> Malformed ->
  (forall least, minimum = Scalar least ->
                 read vm_desc = 0%Z \/ (least <= read vm_desc)%Z) ->
  merge_minimum field invalid minimum read write vm_desc
  = (inr tt,
     match minimum with
     | Scalar least =>
         write (if decide (read vm_desc = 0%Z) then least else read vm_desc) vm_desc
     | _ => vm_desc
     end).
Proof.
  intros Hwell Hmet. unfold merge_minimum. destruct minimum as [|least|]; [done| |done].
  by rewrite (at_least_satisfied _ _ _ (Hmet least eq_refl)).
Qed.

(** C1. For a blueprint that passes validation, and for each of cpus,
    memory and disk that it names a minimum for: when every value of the
    description is unset or at or above its minimum, [fetch_blueprint_for]
    succeeds, an unset value is set to the minimum and an explicit one is
    left as it is; when the caller supplied a value below the minimum, it
    fails with the [BlueprintMinimumException] that names the field, the
    supplied value and the minimum (the first such field, in the order cpus,
    memory, disk). *)
Theorem fetch_blueprint_for_minimums
    name now provider provider' document found query vm_desc :
  (update_blueprints now ;;; at_name name) provider = (inr document, provider') ->
  checked name (arch provider') document = inr found ->
  cloud_init document <> Malformed ->
  image_query name document = inr query ->
  min_cpu document <> Malformed ->
  min_mem document <> Malformed ->
  min_disk document <> Malformed ->
  let met minimum current :=
    forall least, minimum = Scalar least -> current = 0%Z \/ (least <= current)%Z in
  let merged minimum current :=
    match minimum with
    | Scalar least => if decide (current = 0%Z) then least else current
    | _ => current
    end in
  (met (min_cpu document) (num_cores vm_desc) ->
   met (min_mem document) (mem_size vm_desc) ->
   met (min_disk document) (disk_space vm_desc) ->
   exists vm_desc',
     fetch_blueprint_for name now (provider, vm_desc) = (inr query, (provider', vm_desc')) /\
     num_cores vm_desc' = merged (min_cpu document) (num_cores vm_desc) /\
     mem_size vm_desc' = merged (min_mem document) (mem_size vm_desc) /\
     disk_space vm_desc' = merged (min_disk document) (disk_space vm_desc)) /\
  (forall least,
     min_cpu document = Scalar least ->
     num_cores vm_desc <> 0%Z -> (num_cores vm_desc < least)%Z ->
     exists vm_desc',
       fetch_blueprint_for name now (provider, vm_desc)
       = (inl (BlueprintMinimumException "Number of CPUs" (num_cores vm_desc) least),
          (provider', vm_desc'))) /\
  (met (min_cpu document) (num_cores vm_desc) ->
   forall least,
     min_mem document = Scalar least ->
     mem_size vm_desc <> 0%Z -> (mem_size vm_desc < least)%Z ->
     exists vm_desc',
       fetch_blueprint_for name now (provider, vm_desc)
       = (inl (BlueprintMinimumException "Memory size" (mem_size vm_desc) least),
          (provider', vm_desc'))) /\
  (met (min_cpu document) (num_cores vm_desc) ->
   met (min_mem document) (mem_size vm_desc) ->
   forall least,
     min_disk document = Scalar least ->
     disk_space vm_desc <> 0%Z -> (disk_space vm_desc < least)%Z ->
     exists vm_desc',
       fetch_blueprint_for name now (provider, vm_desc)
       = (inl (BlueprintMinimumException "Disk space" (disk_space vm_desc) least),
          (provider', vm_desc'))).
Proof.
  intros Hfound Hchecked Hcloud Himage Hcpu Hmem Hdisk met merged.
  rewrite (fetch_blueprint_for_found _ _ _ vm_desc _ _ Hfound).
  unfold merge_blueprint, merge_minimums, merge_cloud_init, lift.
  unfold bind at 1. rewrite Hchecked. subst met merged. simpl.
  split; [|split; [|split]].
  - intros Hc Hm Hd. unfold bind.
    rewrite (merge_minimum_met _ _ _ _ _ _ Hcpu Hc).
    rewrite merge_minimum_met; [|done|by destruct (min_cpu document)].
    rewrite merge_minimum_met;
      [|done|by destruct (min_cpu document), (min_mem document)].
    rewrite Himage.
    destruct (min_cpu document), (min_mem document), (min_disk document),
      (cloud_init document); try done; simpl; eexists; (split; [reflexivity|]); done.
  - intros least Hleast Hset Hbelow. unfold bind.
    rewrite Hleast, (merge_minimum_below _ _ _ _ _ _ Hset Hbelow). by eexists.
  - intros Hc least Hleast Hset Hbelow. unfold bind.
    rewrite (merge_minimum_met _ _ _ _ _ _ Hcpu Hc), Hleast.
    destruct (min_cpu document); [| |done];
      (rewrite merge_minimum_below; [by eexists | exact Hset | exact Hbelow]).
  - intros Hc Hm least Hleast Hset Hbelow. unfold bind.
    rewrite (merge_minimum_met _ _ _ _ _ _ Hcpu Hc).
    rewrite merge_minimum_met; [|done|by destruct (min_cpu document)].
    rewrite Hleast.
    destruct (min_cpu document); [| |done]; (destruct (min_mem document); [| |done]);
      (rewrite merge_minimum_below; [by eexists | exact Hset | exact Hbelow]).
Qed.





(** A refresh that fails with a transport or archive-extraction failure
    keeps the documents the provider held. *)
Lemma update_blueprints_keeps_stale now provider e :
  fetch_blueprints (url provider) now = inl e ->
  swallowed e = true ->
  exists provider',
    update_blueprints now provider = (inr tt, provider') /\
    blueprint_map provider' = blueprint_map provider.
Proof.
  intros Hfetch Hswallowed.
  unfold Blueprint.update_blueprints, refresh, refetch, blueprint_map.
  destruct (entries (cache provider) !! url provider) as [entry|] eqn:Hentry.
  - destruct (expired (cache provider) entry now).
    + rewrite Hfetch, Hswallowed. eexists. split; [reflexivity|]. simpl. by rewrite Hentry.
    + eexists. split; [reflexivity|]. simpl. by rewrite Hentry.
  - rewrite Hfetch, Hswallowed. eexists. split; [reflexivity|]. simpl. by rewrite Hentry.
Qed.

Lemma construct_of_failure blueprints_url time_to_live architecture now e :
  fetch_blueprints blueprints_url now = inl e ->
  construct blueprints_url time_to_live architecture now
  = if swallowed e
    then inr {| arch := architecture; url := blueprints_url;
                cache := {| ttl := time_to_live; entries := ∅;
                            fetches := [(blueprints_url, now)];
                            log := [error_line e] |} |}
    else inl e.
Proof.
  intros Hfetch.
  unfold Blueprint.construct, Blueprint.update_blueprints, refresh, refetch, empty. simpl.
  rewrite lookup_empty, Hfetch. by destruct (swallowed e).
Qed.

(** C9. Construction does not throw when the download fails or the archive
    cannot be extracted: the failure is logged and the provider starts with no
    blueprints; any other error raised while the bundle is fetched propagates
    to the caller. *)
Theorem construction_swallows_transport_failures
    blueprints_url time_to_live architecture now :
  (forall from cause,
     fetch_blueprints blueprints_url now = inl (DownloadException from cause) ->
     exists provider,
       construct blueprints_url time_to_live architecture now = inr provider /\
       blueprint_map provider = ∅ /\
       log (cache provider)
       = ["Error fetching Blueprints: failed to download from '" +:+ from +:+ "': " +:+ cause]) /\
  (forall what,
     fetch_blueprints blueprints_url now = inl (PocoException what) ->
     exists provider,
       construct blueprints_url time_to_live architecture now = inr provider /\
       blueprint_map provider = ∅ /\
       log (cache provider) = ["Error extracting Blueprints zip file: " +:+ what]) /\
  (forall e,
     fetch_blueprints blueprints_url now = inl e ->
     (forall from cause, e <> DownloadException from cause) ->
     (forall what, e <> PocoException what) ->
     construct blueprints_url time_to_live architecture now = inl e).
Proof.
  split; [|split].
  - intros from cause Hfetch. rewrite (construct_of_failure _ _ _ _ _ Hfetch). simpl.
    eexists. split; [reflexivity|]. split; [|done].
    unfold blueprint_map. simpl. by rewrite lookup_empty.
  - intros what Hfetch. rewrite (construct_of_failure _ _ _ _ _ Hfetch). simpl.
    eexists. split; [reflexivity|]. split; [|done].
    unfold blueprint_map. simpl. by rewrite lookup_empty.
  - intros e Hfetch Hdownload Hpoco. rewrite (construct_of_failure _ _ _ _ _ Hfetch).
    destruct e as [| | | |from cause|what| | | | |]; try done;
      [by destruct (Hdownload from cause) | by destruct (Hpoco what)].
Qed.

End Provider.

Import BlueprintExamples.

Example url_scheme_ftp : url_scheme "ftp://example.com/disk.img" = Some "ftp".
Proof. reflexivity. Qed.

Example query_for_remote_release :
  query_for "daily:bionic"
  = inr {| ImageHost.release := "bionic"; ImageHost.remote_name := "daily";
           ImageHost.allow_unsupported := false |}.
Proof. reflexivity. Qed.

Example construct_test_provider :
  construct download_ok unzip_ok bundle_url 1000 "x86_64" 0 = inr test_provider.
Proof. vm_compute. reflexivity. Qed.

(** The provider of the tests downloads once at start-up and not again
    within its TTL of one second; with a TTL of zero the next request
    downloads a second time. *)
Example does_not_update_blueprints_when_not_needed :
  fetch_count bundle_url
    (cache (snd (update_blueprints download_ok unzip_ok 500 test_provider))) = 1.
Proof. vm_compute. reflexivity. Qed.

Example updates_blueprints_when_needed :
  match construct download_ok unzip_ok bundle_url 0 "x86_64" 0 with
  | inr provider =>
      fetch_count bundle_url
        (cache (snd (update_blueprints download_ok unzip_ok 1 provider))) = 2
  | inl _ => False
  end.
Proof. vm_compute. reflexivity. Qed.

Example fetch_test_blueprint2 :
  fetch_blueprint_for download_ok unzip_ok "test-blueprint2" 500
    (test_provider, unset_description)
  = (inr {| ImageHost.release := "bionic"; ImageHost.remote_name := "daily";
            ImageHost.allow_unsupported := false |},
     (test_provider,
      {| num_cores := 4; mem_size := 4 * GiB; disk_space := 50 * GiB;
         vendor_data_config := Null |})).
Proof. vm_compute. reflexivity. Qed.


(** The three cases of the tests for the cpu count of [test-blueprint1],
    whose minimum is two cores: unset, one core, four cores. *)
Lemma fetch_blueprint_for_minimums_witness :
  (exists vm_desc',
     fetch_blueprint_for download_ok unzip_ok "test-blueprint1" 500
       (test_provider, unset_description)
     = (inr default_query, (test_provider, vm_desc')) /\
     num_cores vm_desc' = 2%Z /\
     mem_size vm_desc' = (2 * GiB)%Z /\
     disk_space vm_desc' = (25 * GiB)%Z) /\
  (exists vm_desc',
     fetch_blueprint_for download_ok unzip_ok "test-blueprint1" 500
       (test_provider, one_core)
     = (inl (BlueprintMinimumException "Number of CPUs" 1 2), (test_provider, vm_desc'))) /\
  (exists vm_desc',
     fetch_blueprint_for download_ok unzip_ok "test-blueprint1" 500
       (test_provider, generous)
     = (inr default_query, (test_provider, vm_desc')) /\
     num_cores vm_desc' = 4%Z /\
     mem_size vm_desc' = (4 * GiB)%Z /\
     disk_space vm_desc' = (50 * GiB)%Z) /\
  (exists vm_desc',
     fetch_blueprint_for download_ok unzip_ok "test-blueprint1" 500
       (test_provider, small_memory)
     = (inl (BlueprintMinimumException "Memory size" GiB (2 * GiB)),
        (test_provider, vm_desc'))) /\
  (exists vm_desc',
     fetch_blueprint_for download_ok unzip_ok "test-blueprint1" 500
       (test_provider, small_disk)
     = (inl (BlueprintMinimumException "Disk space" (20 * GiB) (25 * GiB)),
        (test_provider, vm_desc'))).
Proof.
  pose proof (fun vm_desc =>
    fetch_blueprint_for_minimums download_ok unzip_ok
      "test-blueprint1" 500 test_provider test_provider test_blueprint1
      ("The first test blueprint", "0.1") default_query vm_desc
      ltac:(vm_compute; reflexivity) eq_refl ltac:(discriminate) eq_refl
      ltac:(discriminate) ltac:(discriminate) ltac:(discriminate))
    as Hcases.
  cbv zeta in Hcases.
  split; [|split; [|split; [|split]]].
  - apply (proj1 (Hcases unset_description)); intros least _; left; reflexivity.
  - apply (proj1 (proj2 (Hcases one_core)) 2%Z); [reflexivity | discriminate | reflexivity].
  - apply (proj1 (Hcases generous)); intros least [= <-]; right; discriminate.
  - apply (proj1 (proj2 (proj2 (Hcases small_memory))));
      [intros least _; left; reflexivity | reflexivity | discriminate | reflexivity].
  - apply (proj2 (proj2 (proj2 (Hcases small_disk))));
      [intros least _; left; reflexivity | intros least _; left; reflexivity
      | reflexivity | discriminate | reflexivity].
Defined.


Example info_for_missing_description :
  info_for download_ok unzip_ok "missing-description-blueprint" 500 test_provider
  = (inl (InvalidBlueprintException
            "The 'description' key is required for the missing-description-blueprint Blueprint"),
     test_provider).
Proof. vm_compute. reflexivity. Qed.

(** The three start-up scenarios of the tests: the download fails, the zip
    reader fails, the downloader breaks in some other way. *)
Lemma construction_swallows_transport_failures_witness :
  (exists provider,
     construct download_fails unzip_ok bundle_url 1000 "x86_64" 0 = inr provider /\
     blueprint_map provider = ∅ /\
     log (cache provider)
     = ["Error fetching Blueprints: failed to download from 'https://fake.url': "
        +:+ "There is a problem, Houston."]) /\
  (exists provider,
     construct download_ok unzip_fails bundle_url 0 "x86_64" 0 = inr provider /\
     blueprint_map provider = ∅ /\
     log (cache provider)
     = ["Error extracting Blueprints zip file: Illegal state: Rubbish zip file"]) /\
  construct download_breaks unzip_ok bundle_url 0 "x86_64" 0
  = inl (runtime_error "Bad stuff just happened").
Proof.
  split; [|split].
  - apply (proj1 (construction_swallows_transport_failures download_fails unzip_ok
                    bundle_url 1000 "x86_64" 0)
             "https://fake.url" "There is a problem, Houston.").
    reflexivity.
  - apply (proj1 (proj2 (construction_swallows_transport_failures download_ok unzip_fails
                           bundle_url 0 "x86_64" 0))
             "Illegal state: Rubbish zip file").
    reflexivity.
  - apply (proj2 (proj2 (construction_swallows_transport_failures download_breaks unzip_ok
                           bundle_url 0 "x86_64" 0))).
    + reflexivity.
    + discriminate.
    + discriminate.
Defined.

End BlueprintFacts.

(** * Further properties of the manifest resolver *)
Module ImageHostMoreFacts.
Import ImageHost ImageHostFacts.

Lemma supported_resolved (url : string) (info : VMImageInfo) :
  supported (with_location_fully_resolved url info) = supported info.
Proof. reflexivity. Qed.

Lemma resolved_with_empty_url (info : VMImageInfo) :
  with_location_fully_resolved "" info = info.
Proof. by destruct info. Qed.

Section Resolver.

Context {World : Type}.
Variable remotes : list (string * string).
Variable check_alias_is_supported : string -> string -> Exception + unit.
Variable check_remote_is_supported : string -> Exception + unit.
Variable check_all_aliases_are_supported : list string -> string -> bool.
Variable update_manifests : M (Host World) unit.

Local Abbreviation remote_url_from := (ImageHost.remote_url_from remotes).
Local Abbreviation supported_remotes := (ImageHost.supported_remotes remotes).
Local Abbreviation manifest_from :=
  (ImageHost.manifest_from check_remote_is_supported update_manifests).
Local Abbreviation scan_products := (ImageHost.scan_products remotes).
Local Abbreviation search_remotes :=
  (ImageHost.search_remotes remotes check_remote_is_supported update_manifests).
Local Abbreviation all_info_for :=
  (ImageHost.all_info_for remotes check_alias_is_supported check_remote_is_supported
     update_manifests).
Local Abbreviation info_for :=
  (ImageHost.info_for remotes check_alias_is_supported check_remote_is_supported
     update_manifests).
Local Abbreviation all_images_for :=
  (ImageHost.all_images_for remotes check_remote_is_supported
     check_all_aliases_are_supported update_manifests).
Local Abbreviation info_for_full_hash_impl :=
  (ImageHost.info_for_full_hash_impl (World:=World) remotes).
Local Abbreviation find_full_hash := (ImageHost.find_full_hash remotes).
Local Abbreviation visited := (ImageHost.visited check_remote_is_supported update_manifests).
Local Abbreviation searched := (ImageHost.searched check_remote_is_supported update_manifests).
Local Abbreviation resolve remote :=
  (with_location_fully_resolved (remote_url_from remote)).
Local Abbreviation step_alias :=
  (search_remotes_alias remotes check_remote_is_supported update_manifests).
Local Abbreviation step_scan :=
  (search_remotes_scan remotes check_remote_is_supported update_manifests).
Local Abbreviation step_unsupported :=
  (search_remotes_unsupported remotes check_remote_is_supported update_manifests).

(** An induction principle for the successful runs of the loop over the
    remotes: a property of the accumulated matches that holds at the start
    and is kept by an alias match and by a hash-prefix scan holds of what the
    loop returns. *)
Lemma search_remotes_ind query key (P : list (string * VMImageInfo) -> Prop) :
  (forall images remote manifest info,
     P images -> match_alias key manifest = Some info ->
     supported info || allow_unsupported query = true ->
     P (images ++ [(remote, resolve remote info)])) ->
  (forall images remote manifest,
     P images -> match_alias key manifest = None ->
     P (images ++ scan_products query key remote (products manifest) ∅ [])) ->
  forall rs images h out h',
    P images ->
    search_remotes query key rs images h = (inr out, h') ->
    P out.
Proof.
  intros Halias Hscan. induction rs as [|remote rest IH]; intros images h out h' HP Hrun.
  - by injection Hrun as <- <-.
  - destruct (manifest_from remote h) as [[e|manifest] h1] eqn:Hm.
    + destruct e; try (simpl in Hrun; rewrite Hm in Hrun; discriminate).
      rewrite (step_unsupported _ _ _ _ _ _ _ _ Hm) in Hrun.
      destruct (decide _); [by eapply IH | discriminate].
    + destruct (match_alias key manifest) as [info|] eqn:Ha.
      * destruct (supported info || allow_unsupported query) eqn:Hs.
        -- rewrite (step_alias _ _ _ _ _ _ _ _ _ Hm Ha Hs) in Hrun.
           eapply IH; [|exact Hrun]. by eapply Halias.
        -- simpl in Hrun. rewrite Hm, Ha in Hrun.
           destruct (supported info), (allow_unsupported query); simpl in *; discriminate.
      * rewrite (step_scan _ _ _ _ _ _ _ _ Hm Ha) in Hrun.
        eapply IH; [|exact Hrun]. by eapply Hscan.
Qed.

(** X1. Every record that [all_info_for] returns is supported, unless the
    query allows unsupported images. *)
Theorem all_info_for_only_supported query h images h' :
  all_info_for query h = (inr images, h') ->
  Forall (fun p => supported (snd p) = true \/ allow_unsupported query = true) images.
Proof.
  intros Hall. apply all_info_for_inr in Hall.
  eapply (search_remotes_ind query _
            (Forall (fun p => supported (snd p) = true \/ allow_unsupported query = true)));
    [| |constructor|exact Hall].
  - intros images0 remote manifest info HP _ Hs. apply Forall_app. split; [done|].
    constructor; [|constructor]. simpl. by apply orb_prop in Hs.
  - intros images0 remote manifest HP _. apply Forall_app. split; [done|].
    apply Forall_forall. intros p Hp.
    destruct (scan_products_sound _ _ _ _ _ _ _ Hp) as (entry & _ & -> & Hq).
    unfold hash_match in Hq. apply andb_prop in Hq as [_ Hq]. simpl. by apply orb_prop in Hq.
Qed.

(** *** The content-ids a scan returns *)

Lemma scan_products_fresh query key remote entries (found : gset string) p :
  p ∈ scan_products query key remote entries found [] -> id (snd p) ∉ found.
Proof.
  revert found. induction entries as [|entry rest IH]; intros found; simpl.
  - intros Hin. by apply elem_of_nil in Hin.
  - destruct (String.prefix key (id entry) && (supported entry || allow_unsupported query)
              && bool_decide (id entry ∉ found)) eqn:Hc; [|by apply IH].
    rewrite scan_products_app. simpl. intros Hin.
    apply elem_of_cons in Hin as [-> | Hin].
    + simpl. apply andb_prop in Hc as [_ Hc]. by apply bool_decide_eq_true_1 in Hc.
    + apply IH in Hin. intros Hfound. apply Hin. apply elem_of_union. by right.
Qed.

Lemma scan_products_NoDup query key remote entries (found : gset string) :
  NoDup (map (fun p => id (snd p)) (scan_products query key remote entries found [])).
Proof.
  revert found. induction entries as [|entry rest IH]; intros found; simpl.
  - constructor.
  - destruct (String.prefix key (id entry) && (supported entry || allow_unsupported query)
              && bool_decide (id entry ∉ found)); [|by apply IH].
    rewrite scan_products_app. simpl. constructor; [|by apply IH].
    intros Hin. apply list_elem_of_fmap in Hin as (p & Hid & Hp).
    apply scan_products_fresh in Hp. apply Hp. rewrite <- Hid.
    apply elem_of_union. left. by apply elem_of_singleton.
Qed.

(** X2. A query that pins a remote never returns the same content-id
    twice: the remote contributes its alias match alone, or the products of
    its hash-prefix scan, each content-id once. *)
Theorem all_info_for_pinned_distinct_ids query h images h' :
  remote_name query <> "" ->
  all_info_for query h = (inr images, h') ->
  NoDup (map (fun p => id (snd p)) images) /\
  Forall (fun p => fst p = remote_name query) images.
Proof.
  intros Hpin Hall. apply all_info_for_inr in Hall.
  rewrite remotes_to_search_spec in Hall. destruct (decide _); [done|].
  destruct (manifest_from (remote_name query) h) as [[e|manifest] h1] eqn:Hm.
  - simpl in Hall. rewrite Hm in Hall.
    destruct e; try discriminate.
    by destruct (String.eqb_spec (remote_name query) "").
  - destruct (match_alias (key_from (release query)) manifest) as [info|] eqn:Ha.
    + destruct (supported info || allow_unsupported query) eqn:Hs.
      * rewrite (step_alias _ _ _ _ _ _ _ _ _ Hm Ha Hs) in Hall.
        injection Hall as <- <-. simpl. split; repeat constructor.
        intros Hin. by apply elem_of_nil in Hin.
      * simpl in Hall. rewrite Hm, Ha in Hall.
        destruct (supported info), (allow_unsupported query); simpl in *; discriminate.
    + rewrite (step_scan _ _ _ _ _ _ _ _ Hm Ha) in Hall.
      injection Hall as <- <-. simpl. split; [apply scan_products_NoDup|].
      apply Forall_forall. intros p Hp.
      by destruct (scan_products_sound _ _ _ _ _ _ _ Hp) as (entry & _ & -> & _).
Qed.

(** *** The release of the query *)

Lemma scan_products_allow query query' key remote entries found images :
  allow_unsupported query = allow_unsupported query' ->
  scan_products query key remote entries found images
  = scan_products query' key remote entries found images.
Proof.
  intros Hallow. revert found images.
  induction entries as [|entry rest IH]; intros found images; simpl; [done|].
  rewrite Hallow. by destruct (_ && _ && _).
Qed.

Lemma search_remotes_same_key query query' key rs :
  remote_name query = remote_name query' ->
  allow_unsupported query = allow_unsupported query' ->
  forall images h out h',
    search_remotes query key rs images h = (inr out, h') ->
    search_remotes query' key rs images h = (inr out, h').
Proof.
  intros Hremote Hallow. induction rs as [|remote rest IH]; intros images h out h' Hrun.
  - done.
  - simpl in *. destruct (manifest_from remote h) as [[e|manifest] h1].
    + destruct e; try discriminate. rewrite <- Hremote.
      destruct (String.eqb (remote_name query) ""); [by apply IH | discriminate].
    + destruct (match_alias key manifest) as [info|].
      * rewrite <- Hallow.
        destruct (negb (supported info) && negb (allow_unsupported query));
          [discriminate | by apply IH].
      * rewrite <- (scan_products_allow query query') by done. by apply IH.
Qed.

(** X3. An empty release means the default: a query whose release is empty
    and the same query with the release [default] return the same matches,
    and the same record, from the same state. *)
Theorem empty_release_is_default remote allow h :
  let unnamed := {| release := ""; remote_name := remote; allow_unsupported := allow |} in
  let named := {| release := "default"; remote_name := remote; allow_unsupported := allow |} in
  (forall images h',
     all_info_for unnamed h = (inr images, h') <-> all_info_for named h = (inr images, h')) /\
  (forall found h',
     info_for unnamed h = (inr found, h') <-> info_for named h = (inr found, h')).
Proof.
  intros unnamed named.
  assert (Hall : forall images h',
             all_info_for unnamed h = (inr images, h')
             <-> all_info_for named h = (inr images, h')).
  { intros images h'. unfold ImageHost.all_info_for, bind, lift. simpl.
    change (key_from "") with "default". change (key_from "default") with "default".
    change (remotes_to_search unnamed) with (remotes_to_search named).
    destruct (check_alias_is_supported "default" remote) as [e|[]]; [done|].
    split; by apply search_remotes_same_key. }
  split; [exact Hall|].
  assert (Hinfo : forall (q q' : Query) found h',
             key_from (release q) = key_from (release q') ->
             (forall images h0, all_info_for q h = (inr images, h0) ->
                                all_info_for q' h = (inr images, h0)) ->
             info_for q h = (inr found, h') -> info_for q' h = (inr found, h')).
  { intros q q' found h' Hkey Hsame Hq.
    destruct (all_info_for q h) as [[e|images] h0] eqn:Hrun.
    - by rewrite (info_for_propagates _ _ _ _ _ _ _ _ Hrun) in Hq.
    - rewrite (info_for_of_matches _ _ _ _ _ _ _ _ Hrun) in Hq.
      rewrite (info_for_of_matches _ _ _ _ _ _ _ _ (Hsame _ _ eq_refl)).
      destruct images as [|front more]; [done|]. rewrite <- Hkey.
      by destruct (_ && _ && _). }
  intros found h'. split; apply Hinfo; try done; intros images h0; by apply Hall.
Qed.

(** *** Looking up and not finding *)

Lemma search_remotes_extends query key rs images h out h' :
  search_remotes query key rs images h = (inr out, h') ->
  exists more, out = images ++ more.
Proof.
  intros Hrun.
  destruct (search_remotes_blocks _ _ _ _ _ _ _ _ _ _ Hrun) as (per & _ & _ & ->).
  by exists (concat per).
Qed.

Lemma search_remotes_nothing query key rs :
  forall h h',
    search_remotes query key rs [] h = (inr [], h') ->
    forall remote manifest,
      visited rs h remote manifest ->
      match_alias key manifest = None /\
      Forall (fun entry => hash_match query key entry = false) (products manifest).
Proof.
  induction rs as [|earlier rest IH]; intros h h' Hrun remote manifest Hvisited.
  - inversion Hvisited.
  - destruct (manifest_from earlier h) as [[e|found] h1] eqn:Hm.
    + assert (Hlater : visited rest h1 remote manifest).
      { inversion Hvisited as [? ? ? ? ? Hhere | ? ? ? ? ? ? ? Hthere Hlater]; subst.
        - rewrite Hm in Hhere. discriminate.
        - rewrite Hm in Hthere. by injection Hthere as <- <-. }
      destruct e; try (simpl in Hrun; rewrite Hm in Hrun; discriminate).
      rewrite (step_unsupported _ _ _ _ _ _ _ _ Hm) in Hrun.
      destruct (decide _); [by eapply IH | discriminate].
    + destruct (match_alias key found) as [info|] eqn:Ha.
      * destruct (supported info || allow_unsupported query) eqn:Hs.
        -- rewrite (step_alias _ _ _ _ _ _ _ _ _ Hm Ha Hs) in Hrun.
           apply search_remotes_extends in Hrun as [more Hmore]. discriminate.
        -- simpl in Hrun. rewrite Hm, Ha in Hrun.
           destruct (supported info), (allow_unsupported query); simpl in *; discriminate.
      * rewrite (step_scan _ _ _ _ _ _ _ _ Hm Ha) in Hrun. simpl in Hrun.
        pose proof (search_remotes_extends _ _ _ _ _ _ _ Hrun) as [more Hmore].
        symmetry in Hmore. apply app_eq_nil in Hmore as [Hscan _].
        rewrite Hscan in Hrun.
        inversion Hvisited as [? ? ? ? ? Hhere | ? ? ? ? ? ? ? Hthere Hlater]; subst.
        -- rewrite Hm in Hhere. injection Hhere as <- <-. split; [done|].
           apply Forall_forall. intros entry Hin.
           destruct (hash_match query key entry) eqn:Hq; [|done].
           pose proof (scan_products_complete remotes query key remote _ ∅ entry Hin Hq
                         (not_elem_of_empty _)) as Hid.
           rewrite Hscan in Hid. by apply elem_of_nil in Hid.
        -- rewrite Hm in Hthere. injection Hthere as <- <-. by eapply IH.
Qed.

(** X4. [info_for] returns nothing only when nothing matches: no manifest
    that the search obtained answers the lookup key as an alias, and none
    holds a qualifying product whose content-id starts with the key.  And
    when the remotes searched have no alias for the key and no such product,
    [info_for] returns nothing. *)
Theorem info_for_nothing_found query h h' :
  check_alias_is_supported (key_from (release query)) (remote_name query) = inr tt ->
  (info_for query h = (inr None, h') ->
   forall remote manifest,
     visited (remotes_to_search query) h remote manifest ->
     match_alias (key_from (release query)) manifest = None /\
     Forall (fun entry => hash_match query (key_from (release query)) entry = false)
            (products manifest)) /\
  (forall ms,
     searched query (key_from (release query)) (remotes_to_search query) h ms h' ->
     Forall (fun rm => Forall (fun entry =>
                                 hash_match query (key_from (release query)) entry = false)
                              (products (snd rm))) ms ->
     info_for query h = (inr None, h')).
Proof.
  intros Hcheck. split.
  - intros Hinfo.
    destruct (all_info_for query h) as [[e|images] h0] eqn:Hrun.
    + by rewrite (info_for_propagates _ _ _ _ _ _ _ _ Hrun) in Hinfo.
    + rewrite (info_for_of_matches _ _ _ _ _ _ _ _ Hrun) in Hinfo.
      destruct images as [|front more]; [|by destruct (_ && _ && _)].
      injection Hinfo as <-. rewrite (all_info_for_checked _ _ _ _ _ _ Hcheck) in Hrun.
      by eapply search_remotes_nothing.
  - intros ms Hsearched Hnone.
    pose proof (search_remotes_searched remotes _ _ _ _ _ _ _ _ Hsearched []) as Hrun.
    rewrite <- (all_info_for_checked remotes check_alias_is_supported _ _ _ _ Hcheck) in Hrun.
    rewrite (info_for_of_matches _ _ _ _ _ _ _ _ Hrun). simpl.
    assert (Hempty : concat (map (fun rm => scan_products query (key_from (release query))
                                              (fst rm) (products (snd rm)) ∅ []) ms) = []).
    { clear Hrun Hsearched. induction Hnone as [|rm ms Hrm _ IH]; [done|]. simpl.
      rewrite IH, app_nil_r.
      destruct (scan_products query _ (fst rm) (products (snd rm)) ∅ []) as [|p ps] eqn:Hscan;
        [done|].
      assert (Hp : p ∈ scan_products query (key_from (release query)) (fst rm)
                         (products (snd rm)) ∅ []) by (rewrite Hscan; left).
      destruct (scan_products_sound _ _ _ _ _ _ _ Hp) as (entry & Hin & _ & Hq).
      rewrite Forall_forall in Hrm. by rewrite (Hrm _ Hin) in Hq. }
    by rewrite Hempty.
Qed.

(** *** Looking up by full hash, listing a remote *)

Lemma find_full_hash_None full_hash (ms : list (string * SimpleStreamsManifest)) :
  find_full_hash full_hash ms = None <->
  forall remote manifest product,
    (remote, manifest) ∈ ms -> product ∈ products manifest -> id product <> full_hash.
Proof.
  induction ms as [|[remote manifest] ms IH]; simpl.
  - split; [|done]. intros _ r m p Hin. by apply elem_of_nil in Hin.
  - destruct (find _ (products manifest)) as [product|] eqn:Hfind.
    + split; [done|]. intros Hnone. apply find_some in Hfind as [Hin Heq].
      apply String.eqb_eq in Heq. apply list_elem_of_In in Hin.
      destruct (Hnone remote manifest product); [left | done | done].
    + rewrite IH. split.
      * intros Hrest r m p Hin Hp. apply elem_of_cons in Hin as [[= -> ->] | Hin].
        -- apply list_elem_of_In in Hp.
           pose proof (find_none _ _ Hfind _ Hp) as Hne. by apply String.eqb_neq in Hne.
        -- by eapply Hrest.
      * intros Hall r m p Hin Hp. apply (Hall r m p); [by right | done].
Qed.

(** X5. [info_for_full_hash_impl] leaves the host as it is, and fails, with
    its [runtime_error], exactly when no product of any cached manifest has
    the hash as its content-id; otherwise it returns a record with that
    content-id. *)
Theorem info_for_full_hash_impl_found_or_not full_hash h :
  snd (info_for_full_hash_impl full_hash h) = h /\
  (fst (info_for_full_hash_impl full_hash h)
   = inl (runtime_error ("Unable to find an image matching hash " +:+ quoted full_hash))
   <-> forall remote manifest product,
         (remote, manifest) ∈ manifests h -> product ∈ products manifest ->
         id product <> full_hash) /\
  (forall e, fst (info_for_full_hash_impl full_hash h) = inl e ->
             e = runtime_error ("Unable to find an image matching hash " +:+ quoted full_hash)) /\
  (forall info, fst (info_for_full_hash_impl full_hash h) = inr info -> id info = full_hash).
Proof.
  unfold ImageHost.info_for_full_hash_impl.
  destruct (find_full_hash full_hash (manifests h)) as [info|] eqn:Hfind; simpl.
  - split; [done|]. split; [|split; [done|]].
    + split; [done|]. intros Hnone. apply find_full_hash_None in Hnone. congruence.
    + intros found [= <-].
      by destruct (find_full_hash_Some _ _ _ _ Hfind) as (r & m & stored & _ & _ & <- & ->).
  - split; [done|]. split; [|split; [by intros e [= <-] | done]].
    split; [|done]. intros _. by apply find_full_hash_None.
Qed.

(** X6. [all_images_for] never returns an empty list: given the manifest of
    the remote, it fails with its [runtime_error] exactly when no product is
    supported (or allowed) with all its aliases supported, and otherwise
    returns one record for each such product and no other. *)
Theorem all_images_for_qualifying remote allow h manifest h' :
  manifest_from remote h = (inr manifest, h') ->
  let qualifies entry :=
    (supported entry || allow)
    && check_all_aliases_are_supported (aliases entry) remote = true in
  (all_images_for remote allow h
   = (inl (runtime_error ("Unable to find images for remote " +:+ quoted remote)), h')
   <-> Forall (fun entry => ~ qualifies entry) (products manifest)) /\
  (forall images,
     all_images_for remote allow h = (inr images, h') ->
     images <> [] /\
     Forall qualifies images /\
     forall entry, entry ∈ products manifest -> qualifies entry ->
                   resolve remote entry ∈ images).
Proof.
  intros Hm qualifies. unfold ImageHost.all_images_for, bind. rewrite Hm.
  destruct (map _ _) as [|first more] eqn:Hmap.
  - split; [|done]. split; [|done]. intros _.
    apply fmap_nil_inv in Hmap. apply Forall_forall. intros entry Hin Hq.
    assert (Helem : entry ∈ filter (fun entry => qualifies entry) (products manifest))
      by (by apply list_elem_of_filter).
    unfold qualifies in Helem. rewrite Hmap in Helem. by apply elem_of_nil in Helem.
  - split.
    + split; [done|]. intros Hnone.
      assert (Hfirst : first ∈ first :: more) by left. rewrite <- Hmap in Hfirst.
      apply list_elem_of_fmap in Hfirst as (entry & _ & Hentry).
      apply list_elem_of_filter in Hentry as [Hq Hin].
      rewrite Forall_forall in Hnone. by destruct (Hnone _ Hin).
    + intros images [= <-]. split; [done|]. rewrite <- Hmap. split.
      * apply Forall_forall. intros info Hin.
        apply list_elem_of_fmap in Hin as (entry & -> & Hentry).
        by apply list_elem_of_filter in Hentry as [Hq _].
      * intros entry Hin Hq. apply list_elem_of_fmap. exists entry. split; [done|].
        by apply list_elem_of_filter.
Qed.

(** *** Remotes that the platform does not support, or that are not
    configured *)

(** X7. When the platform supports neither default remote, a query that
    pins no remote finds nothing and raises nothing, and the manifests are
    not refreshed: the host is left as it was. *)
Theorem no_supported_default_remote query h what_release what_daily :
  check_alias_is_supported (key_from (release query)) (remote_name query) = inr tt ->
  remote_name query = "" ->
  check_remote_is_supported release_remote = inl (UnsupportedRemoteException what_release) ->
  check_remote_is_supported daily_remote = inl (UnsupportedRemoteException what_daily) ->
  all_info_for query h = (inr [], h) /\ info_for query h = (inr None, h).
Proof.
  intros Hcheck Hany Hrelease Hdaily.
  assert (Hall : all_info_for query h = (inr [], h)).
  { rewrite (all_info_for_checked _ _ _ _ _ _ Hcheck), remotes_to_search_spec.
    destruct (decide _); [|done].
    assert (Hm : forall remote what,
               check_remote_is_supported remote = inl (UnsupportedRemoteException what) ->
               manifest_from remote h = (inl (UnsupportedRemoteException what), h)).
    { intros remote what Hr. unfold ImageHost.manifest_from, bind, lift. by rewrite Hr. }
    rewrite (step_unsupported _ _ _ _ _ _ _ _ (Hm _ _ Hrelease)).
    destruct (decide _); [|done].
    rewrite (step_unsupported _ _ _ _ _ _ _ _ (Hm _ _ Hdaily)).
    by destruct (decide _). }
  split; [done|]. by rewrite (info_for_of_matches _ _ _ _ _ _ _ _ Hall).
Qed.

Lemma find_remote_None (name : string) :
  name ∉ supported_remotes -> find_remote name remotes = None.
Proof.
  unfold ImageHost.supported_remotes, find_remote.
  induction remotes as [|[n u] rs IH]; [done|]. simpl. intros Hnot.
  apply not_elem_of_cons in Hnot as [Hne Hnot].
  destruct (String.eqb_spec n name); [congruence | by apply IH].
Qed.

Lemma remote_url_from_listed name :
  name ∈ supported_remotes ->
  (name, remote_url_from name) ∈ remotes /\
  exists before after,
    remotes = before ++ (name, remote_url_from name) :: after /\
    name ∉ map fst before.
Proof.
  unfold ImageHost.supported_remotes, ImageHost.remote_url_from, find_remote.
  induction remotes as [|[n u] rs IH]; intros Hin; [by apply elem_of_nil in Hin|].
  simpl. destruct (String.eqb_spec n name) as [-> | Hne].
  - simpl. split; [left|]. exists [], rs. split; [done|]. apply not_elem_of_nil.
  - simpl in Hin. apply elem_of_cons in Hin as [-> | Hin]; [done|].
    destruct (IH Hin) as (Hmem & before & after & Heq & Hfirst).
    split; [by right|]. exists ((n, u) :: before), after.
    split; [by rewrite Heq at 1|]. simpl. apply not_elem_of_cons. by split.
Qed.

(** X8. The names [supported_remotes] lists are those [remote_url_from]
    knows: for a listed name it returns the URL of an entry of that name, the
    first one; for any other name it returns the empty string, and records
    resolved against that remote keep their locations as they are. *)
Theorem remote_url_from_supported_remotes name :
  (name ∈ supported_remotes ->
   (name, remote_url_from name) ∈ remotes /\
   exists before after,
     remotes = before ++ (name, remote_url_from name) :: after /\
     name ∉ map fst before) /\
  (name ∉ supported_remotes ->
   remote_url_from name = "" /\
   forall info, with_location_fully_resolved (remote_url_from name) info = info).
Proof.
  split; [apply remote_url_from_listed|].
  intros Hnot. unfold ImageHost.remote_url_from. rewrite (find_remote_None _ Hnot).
  split; [done|]. apply resolved_with_empty_url.
Qed.

End Resolver.

Section Fetching.

Context {World : Type}.
Variable remotes : list (string * string).
Variable check_remote_is_supported : string -> Exception + unit.
Variable check_all_aliases_are_supported : list string -> string -> bool.
Variable download : string -> M World string.
Variable index_from_json : string -> Exception + SimpleStreamsIndex.
Variable manifest_from_json : string -> string -> Exception + SimpleStreamsManifest.
Variable on_manifest_empty : string -> M (Host World) unit.
Variable on_manifest_update_failure : string -> M (Host World) unit.

Local Abbreviation remote_url_from := (ImageHost.remote_url_from remotes).
Local Abbreviation supported_remotes := (ImageHost.supported_remotes remotes).
Local Abbreviation download_manifest :=
  (ImageHost.download_manifest download index_from_json manifest_from_json).
Local Abbreviation fetch_manifest :=
  (ImageHost.fetch_manifest check_remote_is_supported download index_from_json
     manifest_from_json on_manifest_empty on_manifest_update_failure).
Local Abbreviation fetch_each :=
  (ImageHost.fetch_each check_remote_is_supported download index_from_json
     manifest_from_json on_manifest_empty on_manifest_update_failure).
Local Abbreviation fetch_manifests :=
  (ImageHost.fetch_manifests remotes check_remote_is_supported download index_from_json
     manifest_from_json on_manifest_empty on_manifest_update_failure).
Local Abbreviation for_each_product :=
  (ImageHost.for_each_product remotes check_all_aliases_are_supported).
Local Abbreviation for_each_manifest :=
  (ImageHost.for_each_manifest remotes check_all_aliases_are_supported).
Local Abbreviation for_each_entry_do_impl :=
  (ImageHost.for_each_entry_do_impl (World:=World) remotes check_all_aliases_are_supported).

(** What the [try] block of one remote leaves: the manifests as they were,
    or with the manifest of the remote, which is then supported, at the
    end. *)
Lemma try_block_adds remote h outcome h' :
  (lift (check_remote_is_supported (fst remote)) ;;;
   manifest <- in_world (download_manifest (snd remote)) ;;
   emplace_back (fst remote) manifest) h = (outcome, h') ->
  (manifests h' = manifests h /\ exists e, outcome = inl e) \/
  (check_remote_is_supported (fst remote) = inr tt /\ outcome = inr tt /\
   exists manifest, manifests h' = manifests h ++ [(fst remote, manifest)]).
Proof.
  unfold bind, lift, in_world, emplace_back.
  destruct (check_remote_is_supported (fst remote)) as [e|[]].
  - intros [= <- <-]. left. by eauto.
  - destruct (download_manifest (snd remote) (world h)) as [[e|manifest] w].
    + intros [= <- <-]. left. by eauto.
    + intros [= <- <-]. right. by eauto.
Qed.

Lemma fetch_manifest_adds remote h outcome h' :
  (forall message h0, manifests (snd (on_manifest_empty message h0)) = manifests h0) ->
  (forall message h0, manifests (snd (on_manifest_update_failure message h0)) = manifests h0) ->
  fetch_manifest remote h = (outcome, h') ->
  manifests h' = manifests h \/
  (check_remote_is_supported (fst remote) = inr tt /\ outcome = inr tt /\
   exists manifest, manifests h' = manifests h ++ [(fst remote, manifest)]).
Proof.
  intros Hempty Hfailure. unfold ImageHost.fetch_manifest.
  destruct ((lift (check_remote_is_supported (fst remote)) ;;;
             manifest <- in_world (download_manifest (snd remote)) ;;
             emplace_back (fst remote) manifest) h) as [tried h1] eqn:Htry.
  destruct (try_block_adds _ _ _ _ Htry) as [[Hsame [e ->]] | (Hok & -> & manifest & Hadded)].
  - intros Hhandled. left. rewrite <- Hsame.
    destruct e; try (by injection Hhandled as <- <-).
    + apply (f_equal snd) in Hhandled. simpl in Hhandled. subst h'. apply Hempty.
    + apply (f_equal snd) in Hhandled. simpl in Hhandled. subst h'. apply Hfailure.
    + apply (f_equal snd) in Hhandled. simpl in Hhandled. subst h'. apply Hfailure.
  - intros [= <- <-]. right. by eauto.
Qed.

(** X9. When the reports of the base class leave the manifests alone,
    [fetch_manifests] only appends: what it adds are manifests of configured
    remotes that the platform supports, at most one for each entry of the
    remotes and in their order.  Run after [clear], it leaves only manifests
    whose remote is configured, so that [remote_url_from] finds the base URL
    of each. *)
Theorem fetch_manifests_adds_configured h outcome h' :
  (forall message h0, manifests (snd (on_manifest_empty message h0)) = manifests h0) ->
  (forall message h0, manifests (snd (on_manifest_update_failure message h0)) = manifests h0) ->
  fetch_manifests h = (outcome, h') ->
  (exists added,
     manifests h' = manifests h ++ added /\
     sublist (map fst added) supported_remotes /\
     Forall (fun rm => check_remote_is_supported (fst rm) = inr tt) added) /\
  (manifests h = [] ->
   Forall (fun rm => (fst rm, remote_url_from (fst rm)) ∈ remotes) (manifests h')).
Proof.
  intros Hempty Hfailure Hrun.
  assert (Hadded : exists added,
             manifests h' = manifests h ++ added /\
             sublist (map fst added) supported_remotes /\
             Forall (fun rm => check_remote_is_supported (fst rm) = inr tt) added).
  { revert h Hrun. unfold ImageHost.fetch_manifests, ImageHost.supported_remotes.
    induction remotes as [|remote rest IH]; intros h Hrun.
    - injection Hrun as <- <-. exists []. by rewrite app_nil_r.
    - simpl in Hrun. unfold bind in Hrun.
      destruct (fetch_manifest remote h) as [[e|[]] h1] eqn:Hone.
      + injection Hrun as <- <-.
        destruct (fetch_manifest_adds _ _ _ _ Hempty Hfailure Hone)
          as [Hsame | (_ & Hno & _)]; [|done].
        exists []. rewrite app_nil_r. split; [done|]. split; [apply sublist_nil_l | done].
      + destruct (IH _ Hrun) as (added & Hh' & Hsub & Hok).
        destruct (fetch_manifest_adds _ _ _ _ Hempty Hfailure Hone)
          as [Hsame | (Hsupported & _ & manifest & Hone')].
        * exists added. rewrite <- Hsame. split; [done|]. split; [|done].
          simpl. by apply sublist_cons.
        * exists ((fst remote, manifest) :: added). rewrite Hh', Hone', <- app_assoc.
          split; [done|]. split; [simpl; by apply sublist_skip | by constructor]. }
  split; [exact Hadded|]. intros Hcleared.
  destruct Hadded as (added & -> & Hsub & _). rewrite Hcleared. simpl.
  apply Forall_forall. intros rm Hin.
  apply (remote_url_from_listed remotes (fst rm)).
  eapply elem_of_sublist; [|exact Hsub]. apply list_elem_of_fmap. by exists rm.
Qed.

(** A refresh made of [clear] and [fetch_manifests] leaves only manifests of
    configured remotes, whatever the host held before; and [fetch_manifests]
    alone keeps the manifests so. *)
Lemma fetch_each_known_remotes rs h outcome h' :
  (forall message h0, manifests (snd (on_manifest_empty message h0)) = manifests h0) ->
  (forall message h0, manifests (snd (on_manifest_update_failure message h0)) = manifests h0) ->
  Forall (fun remote => fst remote ∈ supported_remotes) rs ->
  known_remotes remotes h ->
  fetch_each rs h = (outcome, h') ->
  known_remotes remotes h'.
Proof.
  intros Hempty Hfailure Hrs. revert h.
  induction Hrs as [|remote rest Hremote _ IH]; intros h Hknown Hrun.
  - by injection Hrun as <- <-.
  - simpl in Hrun. unfold bind in Hrun.
    destruct (fetch_manifest remote h) as [[e|[]] h1] eqn:Hone.
    + injection Hrun as <- <-.
      destruct (fetch_manifest_adds _ _ _ _ Hempty Hfailure Hone)
        as [Hsame | (_ & Hno & _)]; [|done].
      unfold known_remotes. by rewrite Hsame.
    + apply (IH h1); [|done].
      destruct (fetch_manifest_adds _ _ _ _ Hempty Hfailure Hone)
        as [Hsame | (_ & _ & manifest & Hone')]; unfold known_remotes.
      * by rewrite Hsame.
      * rewrite Hone'. apply Forall_app. split; [done|]. by constructor.
Qed.

Lemma refresh_known_remotes h outcome h' :
  (forall message h0, manifests (snd (on_manifest_empty message h0)) = manifests h0) ->
  (forall message h0, manifests (snd (on_manifest_update_failure message h0)) = manifests h0) ->
  (clear ;;; fetch_manifests) h = (outcome, h') ->
  known_remotes remotes h'.
Proof.
  intros Hempty Hfailure. unfold bind, clear, ImageHost.fetch_manifests.
  apply fetch_each_known_remotes; [done | done | | by constructor].
  unfold ImageHost.supported_remotes. apply Forall_forall. intros remote Hin.
  apply list_elem_of_fmap. by exists remote.
Qed.

(** X10. When the reports of the base class do not throw, [fetch_manifests]
    lets none of the exceptions it catches out: an empty or malformed
    manifest, a failed download and an unsupported remote never reach its
    caller. *)
Theorem fetch_manifests_swallows h e h' :
  (forall message h0, fst (on_manifest_empty message h0) = inr tt) ->
  (forall message h0, fst (on_manifest_update_failure message h0) = inr tt) ->
  fetch_manifests h = (inl e, h') ->
  (forall what, e <> EmptyManifestException what) /\
  (forall what, e <> GenericManifestException what) /\
  (forall from cause, e <> DownloadException from cause) /\
  (forall what, e <> UnsupportedRemoteException what).
Proof.
  intros Hempty Hfailure. unfold ImageHost.fetch_manifests. revert h.
  induction remotes as [|remote rest IH]; intros h Hrun; [done|].
  simpl in Hrun. unfold bind in Hrun.
  destruct (fetch_manifest remote h) as [[e1|[]] h1] eqn:Hone; [|by eapply IH].
  injection Hrun as -> <-. revert Hone. unfold ImageHost.fetch_manifest.
  destruct ((lift (check_remote_is_supported (fst remote)) ;;;
             manifest <- in_world (download_manifest (snd remote)) ;;
             emplace_back (fst remote) manifest) h) as [[thrown|[]] h2]; [|done].
  destruct thrown; intros Hhandled; try discriminate Hhandled;
    try (by injection Hhandled as <- <-).
  - pose proof (Hempty ("Did not find any supported products in " +:+ quoted (fst remote)) h2)
      as Hno. rewrite Hhandled in Hno. discriminate.
  - pose proof (Hfailure (what_of (GenericManifestException what)) h2) as Hno.
    rewrite Hhandled in Hno. discriminate.
  - pose proof (Hfailure (what_of (DownloadException url cause)) h2) as Hno.
    rewrite Hhandled in Hno. discriminate.
Qed.

(** *** Visiting every entry *)

Lemma visit_all_app {S : Type} (action : string -> VMImageInfo -> M S unit)
    (first second : list (string * VMImageInfo)) (s : S) :
  visit_all action (first ++ second) s
  = (visit_all action first ;;; visit_all action second) s.
Proof.
  revert s. induction first as [|visit first IH]; intros s; [done|].
  simpl. unfold bind in *. destruct (action (fst visit) (snd visit) s) as [[e|[]] s1]; [done|].
  apply IH.
Qed.

Lemma for_each_product_visits {S : Type} (action : string -> VMImageInfo -> M S unit)
    remote entries (s : S) :
  for_each_product action remote entries s
  = visit_all action
      (map (fun product =>
              (remote, with_location_fully_resolved (remote_url_from remote) product))
         (List.filter (fun product =>
                         check_all_aliases_are_supported (aliases product) remote)
            entries)) s.
Proof.
  revert s. induction entries as [|product rest IH]; intros s; [done|].
  simpl. destruct (check_all_aliases_are_supported (aliases product) remote); simpl.
  - unfold bind. destruct (action remote _ s) as [[e|[]] s1]; [done | apply IH].
  - unfold bind, ret. apply IH.
Qed.

(** X11. [for_each_entry_do_impl] calls the action once for every product
    all of whose aliases are supported for its remote, and for no other, in
    the order of the manifests and of their products, each time with the
    locations resolved against the remote; a throw of the action ends the
    visit. *)
Theorem for_each_entry_do_impl_visits {S : Type}
    (action : string -> VMImageInfo -> M S unit) (h : Host World) (s : S) :
  for_each_entry_do_impl action h s
  = visit_all action
      (concat
         (map (fun rm =>
                 map (fun product =>
                        (fst rm,
                         with_location_fully_resolved (remote_url_from (fst rm)) product))
                   (List.filter (fun product =>
                                   check_all_aliases_are_supported (aliases product) (fst rm))
                      (products (snd rm))))
            (manifests h))) s.
Proof.
  unfold ImageHost.for_each_entry_do_impl. revert s.
  induction (manifests h) as [|rm ms IH]; intros s; [done|].
  simpl. rewrite visit_all_app. unfold bind.
  rewrite for_each_product_visits.
  destruct (visit_all action _ s) as [[e|[]] s1]; [done | apply IH].
Qed.

End Fetching.

Import ImageHostExamples ImageHostFetchExamples.

Lemma all_info_for_only_supported_witness :
  Forall (fun p => supported (snd p) = true \/ allow_unsupported query_ab = true)
    [("release", resolved "release" release_ab);
     ("daily", resolved "daily" daily_ab11);
     ("daily", resolved "daily" daily_ab22)].
Proof.
  apply (all_info_for_only_supported sample_remotes any_alias any_remote fresh
           query_ab alias_then_hashes _ alias_then_hashes).
  vm_compute. reflexivity.
Defined.

Lemma all_info_for_pinned_distinct_ids_witness :
  NoDup (map (fun p => id (snd p))
           [("daily", resolved "daily" daily_ab11); ("daily", resolved "daily" daily_ab22)]) /\
  Forall (fun p => fst p = remote_name query_daily_ab)
    [("daily", resolved "daily" daily_ab11); ("daily", resolved "daily" daily_ab22)].
Proof.
  apply (all_info_for_pinned_distinct_ids sample_remotes any_alias any_remote fresh
           query_daily_ab alias_then_hashes _ alias_then_hashes).
  - discriminate.
  - vm_compute. reflexivity.
Defined.

Lemma info_for_nothing_found_witness :
  info_for sample_remotes any_alias any_remote fresh query_zz alias_then_hashes
  = (inr None, alias_then_hashes).
Proof.
  apply (proj2 (info_for_nothing_found sample_remotes any_alias any_remote fresh
                  query_zz alias_then_hashes alias_then_hashes eq_refl)
           (manifests alias_then_hashes)).
  - eapply searched_scan; [reflexivity | reflexivity |].
    eapply searched_scan; [reflexivity | reflexivity |].
    apply searched_nil.
  - repeat constructor.
Defined.

Lemma all_images_for_qualifying_witness :
  all_images_for sample_remotes any_remote all_aliases fresh "daily" false alias_then_hashes
  = (inr [resolved "daily" daily_ab11; resolved "daily" daily_ab22], alias_then_hashes) /\
  [resolved "daily" daily_ab11; resolved "daily" daily_ab22] <> [] /\
  Forall (fun entry => (supported entry || false) && all_aliases (aliases entry) "daily" = true)
    [resolved "daily" daily_ab11; resolved "daily" daily_ab22].
Proof.
  assert (Hrun : all_images_for sample_remotes any_remote all_aliases fresh "daily" false
                   alias_then_hashes
                 = (inr [resolved "daily" daily_ab11; resolved "daily" daily_ab22],
                    alias_then_hashes)) by (vm_compute; reflexivity).
  split; [exact Hrun|].
  pose proof (proj2 (all_images_for_qualifying sample_remotes any_remote all_aliases fresh
                       "daily" false alias_then_hashes
                       (sample_manifest [daily_ab11; daily_ab22]) alias_then_hashes eq_refl)
                _ Hrun) as [Hsome [Hall _]].
  by split.
Defined.

Lemma no_supported_default_remote_witness :
  all_info_for sample_remotes any_alias no_remote fresh query_ab alias_then_hashes
  = (inr [], alias_then_hashes) /\
  info_for sample_remotes any_alias no_remote fresh query_ab alias_then_hashes
  = (inr None, alias_then_hashes).
Proof.
  apply (no_supported_default_remote sample_remotes any_alias no_remote fresh query_ab
           alias_then_hashes "release" "daily"); reflexivity.
Defined.

Lemma fetch_manifests_adds_configured_witness :
  fetch_manifests sample_remotes any_remote sample_download sample_index
    sample_manifest_from_json quiet_report quiet_report empty_host
  = (inr tt, {| manifests := [("release", sample_manifest [release_ab])]; world := tt |}) /\
  Forall (fun rm => (fst rm, remote_url_from sample_remotes (fst rm)) ∈ sample_remotes)
    [("release", sample_manifest [release_ab])].
Proof.
  assert (Hrun : fetch_manifests sample_remotes any_remote sample_download sample_index
                   sample_manifest_from_json quiet_report quiet_report empty_host
                 = (inr tt, {| manifests := [("release", sample_manifest [release_ab])];
                               world := tt |})) by (vm_compute; reflexivity).
  split; [exact Hrun|].
  apply (proj2 (fetch_manifests_adds_configured sample_remotes any_remote sample_download
                  sample_index sample_manifest_from_json quiet_report quiet_report
                  empty_host _ _ (fun _ _ => eq_refl) (fun _ _ => eq_refl) Hrun)).
  reflexivity.
Defined.

Lemma fetch_manifests_swallows_witness :
  fetch_manifests sample_remotes any_remote aborted_download sample_index
    sample_manifest_from_json quiet_report quiet_report empty_host
  = (inl (runtime_error
            "Operation canceled: https://cloud-images.example/releases/streams/v1/index.json"),
     empty_host) /\
  forall from cause,
    runtime_error
      "Operation canceled: https://cloud-images.example/releases/streams/v1/index.json"
    <> DownloadException from cause.
Proof.
  assert (Hrun : fetch_manifests sample_remotes any_remote aborted_download sample_index
                   sample_manifest_from_json quiet_report quiet_report empty_host
                 = (inl (runtime_error
                           "Operation canceled: https://cloud-images.example/releases/streams/v1/index.json"),
                    empty_host)) by (vm_compute; reflexivity).
  split; [exact Hrun|].
  apply (fetch_manifests_swallows sample_remotes any_remote aborted_download sample_index
           sample_manifest_from_json quiet_report quiet_report empty_host _ _
           (fun _ _ => eq_refl) (fun _ _ => eq_refl) Hrun).
Defined.

End ImageHostMoreFacts.

(** * Properties of the strings *)
Module QtStringFacts.
Import QtString.

Lemma append_assoc (a b c : string) : (a +:+ b) +:+ c = a +:+ (b +:+ c).
Proof.
  induction a as [|x a IH]; [done|].
  change ((String x a +:+ b) +:+ c) with (String x ((a +:+ b) +:+ c)).
  change (String x a +:+ (b +:+ c)) with (String x (a +:+ (b +:+ c))). by rewrite IH.
Qed.

Lemma append_nil_r (a : string) : a +:+ "" = a.
Proof.
  induction a as [|x a IH]; [done|].
  change (String x a +:+ "") with (String x (a +:+ "")). by rewrite IH.
Qed.

Lemma is_empty_true (s : string) : is_empty s = true <-> s = "".
Proof. by destruct s. Qed.

Lemma split_not_nil (sep : ascii) (s : string) : split sep s <> [].
Proof.
  destruct s as [|c s]; [done|]. simpl.
  destruct (Ascii.eqb c sep); [done|]. by destruct (split sep s).
Qed.

(** Joining the fields of a string gives the string back. *)
Lemma join_split (sep : ascii) (s : string) : join sep (split sep s) = s.
Proof.
  induction s as [|c s IH]; [done|]. simpl.
  destruct (Ascii.eqb_spec c sep) as [-> | Hne].
  - destruct (split sep s) as [|field fields] eqn:Hsplit; [by destruct (split_not_nil sep s)|].
    change (join sep ("" :: field :: fields)) with (String sep (join sep (field :: fields))).
    by rewrite IH.
  - destruct (split sep s) as [|field fields] eqn:Hsplit; [by destruct (split_not_nil sep s)|].
    rewrite <- IH. by destruct fields.
Qed.

(** A string has one field more than it has separators. *)
Lemma length_split (sep : ascii) (s : string) : length (split sep s) = S (count sep s).
Proof.
  induction s as [|c s IH]; [done|]. simpl.
  destruct (Ascii.eqb c sep); simpl; [by rewrite IH|].
  destruct (split sep s) as [|field fields]; simpl in *; [done | by rewrite <- IH].
Qed.

(** No field holds a separator. *)
Lemma split_fields (sep : ascii) (s : string) :
  Forall (fun field => count sep field = 0) (split sep s).
Proof.
  induction s as [|c s IH]; [by repeat constructor|]. simpl.
  destruct (Ascii.eqb c sep) eqn:Hc; [by constructor|].
  destruct (split sep s) as [|field fields]; [repeat constructor; simpl; by rewrite Hc|].
  apply Forall_cons in IH as [Hfield Hfields]. constructor; [|done]. simpl. by rewrite Hc.
Qed.

Lemma count_append (ch : ascii) (a b : string) :
  count ch (a +:+ b) = count ch a + count ch b.
Proof.
  induction a as [|x a IH]; [done|].
  change (String x a +:+ b) with (String x (a +:+ b)). simpl. rewrite IH. lia.
Qed.

Lemma count_separator (ch : ascii) (s : string) : count ch (String ch s) = S (count ch s).
Proof. simpl. by rewrite Ascii.eqb_refl. Qed.

Lemma join_app (sep : ascii) (first second : list string) :
  first <> [] -> second <> [] ->
  join sep (first ++ second) = join sep first +:+ String sep (join sep second).
Proof.
  intros Hfirst Hsecond. induction first as [|field first IH]; [done|].
  destruct first as [|next first].
  - destruct second; [done|]. reflexivity.
  - change (join sep ((field :: next :: first) ++ second))
      with (field +:+ String sep (join sep ((next :: first) ++ second))).
    rewrite IH by done.
    change (join sep (field :: next :: first))
      with (field +:+ String sep (join sep (next :: first))).
    rewrite append_assoc.
    by change (String sep (join sep (next :: first)) +:+ String sep (join sep second))
      with (String sep (join sep (next :: first) +:+ String sep (join sep second))).
Qed.

(** The sections before and from field [k] of a string make up the string:
    the first alone when there is no field [k], otherwise the two with a
    separator between them. *)
Lemma section_cut (sep : ascii) (k : nat) (s : string) :
  s = section sep 0 (Some k) s /\ section sep (S k) None s = "" \/
  s = section sep 0 (Some k) s +:+ String sep (section sep (S k) None s).
Proof.
  unfold section. rewrite drop_0, firstn_all.
  destruct (drop (S k) (split sep s)) as [|field fields] eqn:Hdrop.
  - left. split; [|done]. apply drop_nil_inv in Hdrop as Hlen.
    rewrite take_ge by done. by rewrite join_split.
  - right. rewrite <- join_app.
    + by rewrite <- Hdrop, take_drop, join_split.
    + destruct (split sep s) eqn:Hsplit; [by destruct (split_not_nil sep s) | done].
    + done.
Qed.

Lemma length_resize (n : nat) (s : string) : String.length (resize n s) = n.
Proof.
  revert s. induction n as [|n IH]; intros s; [done|].
  destruct s; simpl; by rewrite IH.
Qed.

End QtStringFacts.

(** * Properties of the launch command *)
Module LaunchFacts.
Import QtString QtStringFacts Launch.

(** X12. The image argument of the command: a URL (http, https or file) is
    taken whole as the image; any other argument is refused exactly when it
    holds more than one colon; with one colon it is read as [remote:image],
    and remote and image, neither holding a colon, make up the argument
    again; with none it is the image, and the remote is left as it was. *)
Theorem parse_image_argument_round_trip name request :
  (parse_image_argument name request
   = inl ("Invalid remote and source image name supplied" +:+ newline)
   <-> http_or_file name = false /\ 1 < count ":" name) /\
  (forall message, parse_image_argument name request = inl message ->
                   message = "Invalid remote and source image name supplied" +:+ newline) /\
  (forall parsed,
     parse_image_argument name request = inr parsed ->
     (image parsed = name /\ remote_name parsed = remote_name request /\
      (http_or_file name = true \/ count ":" name = 0)) \/
     (http_or_file name = false /\
      name = remote_name parsed +:+ ":" +:+ image parsed /\
      count ":" (remote_name parsed) = 0 /\ count ":" (image parsed) = 0)).
Proof.
  unfold parse_image_argument.
  destruct (http_or_file name) eqn:Hurl.
  { split; [split; [done | by intros [? _]]|]. split; [done|].
    intros parsed [= <-]. left. simpl. by eauto. }
  destruct (Nat.ltb_spec 1 (count ":" name)) as [Hmany | Hfew].
  { split; [by split|]. split; [by intros message [= <-] | done]. }
  split; [split; [by destruct (_ =? _)%nat | intros [_ Hmany]; lia]|].
  split; [by destruct (_ =? _)%nat|].
  destruct (Nat.eqb_spec (count ":" name) 1) as [Hone | Hnone].
  - intros parsed [= <-]. right. simpl. split; [done|].
    pose proof (length_split ":" name) as Hlen. rewrite Hone in Hlen.
    pose proof (join_split ":" name) as Hjoin.
    pose proof (split_fields ":" name) as Hfields.
    unfold section. rewrite Hlen.
    destruct (split ":" name) as [|remote [|rest [|more fields]]]; try discriminate.
    apply Forall_cons in Hfields as [Hremote Hfields].
    apply Forall_cons in Hfields as [Hrest _]. simpl. by rewrite <- Hjoin.
  - intros parsed [= <-]. left. simpl. split; [done|]. split; [done|]. right. lia.
Qed.

Lemma count_section_first (value : string) (k : nat) :
  k <= count ":" value -> count ":" (section ":" 0 (Some k) value) = k.
Proof.
  intros Hk. unfold section. rewrite drop_0.
  pose proof (length_split ":" value) as Hlen.
  pose proof (split_fields ":" value) as Hfields.
  assert (Hgen : forall fields n,
             Forall (fun field => count ":" field = 0) fields -> n < length fields ->
             count ":" (join ":" (take (S n) fields)) = n).
  { clear. intros fields. induction fields as [|field fields IH]; intros n Hfields Hn.
    - simpl in Hn. lia.
    - apply Forall_cons in Hfields as [Hfield Hfields].
      destruct n as [|n].
      + destruct fields; by simpl.
      + simpl in Hn. destruct fields as [|next fields]; [simpl in Hn; lia|].
        change (take (S (S n)) (field :: next :: fields))
          with (field :: take (S n) (next :: fields)).
        change (join ":" (field :: take (S n) (next :: fields)))
          with (field +:+ String ":" (join ":" (take (S n) (next :: fields)))).
        rewrite count_append, Hfield, count_separator.
        rewrite IH; [done | done | simpl in *; lia]. }
  apply Hgen; [done | lia].
Qed.

(** X13. A value of the mount option: the source and the target that it is
    cut into make up the value again with a colon between them, unless the
    value names no target, when the target is the source.  The source holds
    no colon, but for the one after the drive letter of a Windows path. *)
Theorem mount_route_round_trip value :
  let source := fst (mount_route value) in
  let target := snd (mount_route value) in
  (value = source +:+ ":" +:+ target /\ target <> ""
   \/ (value = source \/ value = source +:+ ":") /\ target = source) /\
  count ":" source = Nat.b2n (windows_path value).
Proof.
  intros source target. subst source target. unfold mount_route. simpl. split.
  - rewrite Nat.add_1_r.
    destruct (section_cut ":" (Nat.b2n (windows_path value)) value) as [[Hall Hnone] | Hcut].
    + right. rewrite Hnone. simpl. split; [by left | done].
    + destruct (is_empty _) eqn:Hempty.
      * right. split; [|done]. right. apply is_empty_true in Hempty.
        by rewrite Hempty in Hcut.
      * left. split; [done|]. intros Hnone. rewrite Hnone in Hempty. discriminate.
  - apply count_section_first.
    destruct value as [|letter [|colon [|slash rest]]]; simpl; try lia.
    destruct (ascii_letter letter && Ascii.eqb colon ":"
              && (Ascii.eqb slash "\" || Ascii.eqb slash "/")) eqn:Hpath; simpl; [|lia].
    apply andb_prop in Hpath as [Hpath _]. apply andb_prop in Hpath as [_ Hcolon].
    rewrite Hcolon. lia.
Qed.

Section NetDigest.

Variable valid_mac_address : string -> bool.
Variable to_lower : string -> string.

Local Abbreviation digest_pair := (Launch.digest_pair valid_mac_address to_lower).
Local Abbreviation digest_pairs := (Launch.digest_pairs valid_mac_address to_lower).
Local Abbreviation net_digest := (Launch.net_digest valid_mac_address to_lower).

Lemma digest_pairs_mac parts pairs net net' :
  mac_address net = "" \/ valid_mac_address (mac_address net) = true ->
  digest_pairs parts pairs net = inr net' ->
  mac_address net' = "" \/ valid_mac_address (mac_address net') = true.
Proof.
  revert net. induction pairs as [|pair pairs IH]; intros net Hmac; simpl.
  - by intros [= <-].
  - destruct (digest_pair parts pair net) as [e|net1] eqn:Hpair; [done|].
    apply IH. revert Hpair. unfold Launch.digest_pair, checked_mac.
    destruct (split_skip_empty "=" pair) as [|first [|val [|more rest]]]; try done.
    + destruct (_ =? _)%nat; [|done]. by intros [= <-].
    + destruct (String.eqb (to_lower first) "name"); [by intros [= <-]|].
      destruct (String.eqb (to_lower first) "mode").
      { destruct (checked_mode (to_lower val)); [done | by intros [= <-]]. }
      destruct (String.eqb (to_lower first) "mac"); [|done].
      destruct (valid_mac_address val) eqn:Hvalid; simpl; [|done].
      intros [= <-]. simpl. by right.
Qed.

(** X14. A network that [net_digest] returns has a name, and its hardware
    address, when the options give one, is one that [valid_mac_address]
    accepts. *)
Theorem net_digest_named options net :
  net_digest options = inr net ->
  id net <> "" /\
  (mac_address net = "" \/ valid_mac_address (mac_address net) = true).
Proof.
  unfold Launch.net_digest.
  destruct (digest_pairs _ _ new_network) as [e|digested] eqn:Hpairs; [done|].
  destruct (is_empty (id digested)) eqn:Hid; [done|]. intros [= <-]. split.
  - intros Hnone. rewrite Hnone in Hid. discriminate.
  - eapply digest_pairs_mac; [|exact Hpairs]. by left.
Qed.

Lemma filter_fields_one (sep : ascii) (s : string) :
  s <> "" -> count sep s = 0 -> split_skip_empty sep s = [s].
Proof.
  intros Hs Hcount. unfold split_skip_empty.
  pose proof (length_split sep s) as Hlen. rewrite Hcount in Hlen.
  pose proof (join_split sep s) as Hjoin.
  destruct (split sep s) as [|field [|next fields]]; try discriminate.
  simpl in Hjoin. subst field. simpl. by destruct s.
Qed.

(** X15. The shortcut of the network option: options that hold no comma
    and no equals sign are the name of the network, which is connected in
    the automatic mode, with no hardware address given. *)
Theorem net_digest_shortcut name :
  name <> "" -> count "," name = 0 -> count "=" name = 0 ->
  net_digest name = inr {| id := name; mode := AUTO; mac_address := "" |}.
Proof.
  intros Hname Hcomma Hequals. unfold Launch.net_digest.
  rewrite (filter_fields_one "," name Hname Hcomma). simpl.
  unfold Launch.digest_pair. rewrite (filter_fields_one "=" name Hname Hequals). simpl.
  by destruct name.
Qed.

End NetDigest.

Section Run.

Context {World : Type}.
Variable mount : string -> string -> World -> ReturnCode * World.

Local Abbreviation mount_each := (Launch.mount_each mount).

Lemma mount_each_failed routes code w :
  fst (mount_each routes (Failed code) w) = Failed code.
Proof.
  revert w. induction routes as [|route routes IH]; intros w; [done|].
  simpl. destruct (mount _ _ w) as [ret w1]. apply IH.
Qed.

(** X16. The loop of [run] over the mount routes mounts every route, also
    after a mount has failed, and returns the code of the first mount that
    failed, or [Ok] when none did. *)
Theorem mount_each_first_failure routes w :
  snd (mount_each routes Ok w)
  = fold_left (fun w0 route => snd (mount (fst route) (snd route) w0)) routes w /\
  fst (mount_each routes Ok w)
  = match List.filter (fun ret => negb (is_ok ret)) (mount_results mount routes w) with
    | [] => Ok
    | failure :: _ => failure
    end.
Proof.
  split.
  - generalize Ok. revert w. induction routes as [|route routes IH]; intros w ret; [done|].
    simpl. destruct (mount _ _ w) as [mount_ret w1]. apply IH.
  - revert w. induction routes as [|route routes IH]; intros w; [done|].
    simpl. destruct (mount _ _ w) as [mount_ret w1]. simpl.
    destruct mount_ret as [|code]; simpl; [apply IH | apply mount_each_failed].
Qed.

Variable home_automount_dir : string.
Variable cout : string -> World -> World.

Local Abbreviation routes_after_launch := (Launch.routes_after_launch home_automount_dir).
Local Abbreviation mount_after_launch :=
  (Launch.mount_after_launch mount home_automount_dir cout).

(** X17. With the mounts feature enabled, after a launch of the primary
    instance the routes always hold a route to the automount directory, and
    exactly the routes given when they hold one already, so that the home is
    never added twice; the routes of any other instance, and all routes when
    the feature is disabled, are left as given.  The routes given always
    come first, in their order.  After a launch that succeeded, the routes
    are mounted when the feature is enabled; when it is disabled no route is
    mounted and a line is written; a failed launch is returned as it is,
    with nothing mounted. *)
Theorem routes_after_launch_home mounts_enabled instance_name petenv_name home mount_routes :
  let routes :=
    routes_after_launch mounts_enabled instance_name petenv_name home mount_routes in
  let to_home := existsb (fun route => String.eqb (snd route) home_automount_dir) in
  (mounts_enabled = true -> instance_name = petenv_name -> to_home routes = true) /\
  (mounts_enabled = false \/ instance_name <> petenv_name \/ to_home mount_routes = true ->
   routes = mount_routes) /\
  (forall home',
     routes_after_launch mounts_enabled instance_name petenv_name home' routes = routes) /\
  take (length mount_routes) routes = mount_routes /\
  (forall w,
     mount_after_launch Ok mounts_enabled instance_name petenv_name home mount_routes w
     = if mounts_enabled
       then mount_each routes Ok w
       else (Ok, cout ("Skipping mount due to disabled mounts feature" +:+ newline) w)) /\
  (forall code w,
     mount_after_launch (Failed code) mounts_enabled instance_name petenv_name home
       mount_routes w
     = (Failed code, w)).
Proof.
  intros routes to_home. subst routes to_home.
  unfold Launch.mount_after_launch, Launch.routes_after_launch.
  destruct mounts_enabled.
  - destruct (String.eqb instance_name petenv_name) eqn:Hpet; simpl.
    + destruct (existsb _ mount_routes) eqn:Hhome; simpl.
      * split; [done|]. split; [done|]. split; [by rewrite Hhome|].
        split; [by apply firstn_all|done].
      * split; [intros _ _; rewrite existsb_app; simpl;
                by rewrite String.eqb_refl, orb_true_r|].
        split; [intros [Hoff | [Hother|]]; [done | | done];
                by apply String.eqb_eq in Hpet|].
        split; [|split; [by rewrite take_app_length|done]].
        intros home'. rewrite existsb_app. simpl.
        by rewrite String.eqb_refl, orb_true_r.
    + split; [intros _ Hsame; apply String.eqb_neq in Hpet; done|].
      split; [done|]. split; [done|]. split; [by apply firstn_all|done].
  - split; [done|]. split; [done|]. split; [done|]. split; [by apply firstn_all|done].
Qed.

End Run.

Lemma net_digest_named_witness :
  id {| id := "eth0"; mode := MANUAL; mac_address := "52:54:00:aa:bb:cc" |} <> "" /\
  (mac_address {| id := "eth0"; mode := MANUAL; mac_address := "52:54:00:aa:bb:cc" |} = "" \/
   String.eqb (mac_address {| id := "eth0"; mode := MANUAL;
                              mac_address := "52:54:00:aa:bb:cc" |})
     "52:54:00:aa:bb:cc" = true).
Proof.
  apply (net_digest_named (fun mac => String.eqb mac "52:54:00:aa:bb:cc") (fun s => s)
           "name=eth0,mode=manual,mac=52:54:00:aa:bb:cc").
  vm_compute. reflexivity.
Defined.

Lemma net_digest_shortcut_witness :
  net_digest (fun mac => String.eqb mac "52:54:00:aa:bb:cc") (fun s => s) "eth0"
  = inr {| id := "eth0"; mode := AUTO; mac_address := "" |}.
Proof.
  apply (net_digest_shortcut (fun mac => String.eqb mac "52:54:00:aa:bb:cc") (fun s => s)
           "eth0"); [discriminate | reflexivity | reflexivity].
Defined.

End LaunchFacts.

(** * Properties of the QEMU platform *)
Module QemuFacts.
Import QtString QtStringFacts Qemu.

Section Platform.

Context {World : Type}.
Variable hash : string -> N.
Variable run_cmd_for_status : string -> list string -> World -> bool * World.
Variable release_mac : string -> M World unit.

Local Abbreviation generate_tap_device_name := (Qemu.generate_tap_device_name hash).
Local Abbreviation remove_tap_device := (Qemu.remove_tap_device run_cmd_for_status).
Local Abbreviation remove_resources_for :=
  (Qemu.remove_resources_for run_cmd_for_status release_mac).
Local Abbreviation vm_platform_args := (Qemu.vm_platform_args hash run_cmd_for_status).

(** X18. The name of a tap device has exactly fifteen characters, the
    longest an interface name can be, and starts with [tap-], whatever the
    name of the instance and its hash. *)
Theorem generate_tap_device_name_length vm_name :
  String.length (generate_tap_device_name vm_name) = 15 /\
  String.prefix "tap-" (generate_tap_device_name vm_name) = true.
Proof.
  unfold Qemu.generate_tap_device_name. split; [apply length_resize|].
  change ("tap-" +:+ hex (hash vm_name))
    with (String "t" (String "a" (String "p" (String "-" (hex (hash vm_name)))))).
  change (resize 15 (String "t" (String "a" (String "p" (String "-" (hex (hash vm_name)))))))
    with (String "t" (String "a" (String "p" (String "-" (resize 11 (hex (hash vm_name))))))).
  generalize (resize 11 (hex (hash vm_name))). intros rest. by destruct rest.
Qed.

(** X19. [remove_resources_for] does nothing for an instance the platform
    holds no device for: no address is released and no command is run.  For
    an instance it holds a device for, once the address is released, the
    device is forgotten, and the devices of the other instances are kept. *)
Theorem remove_resources_for_forgets name platform :
  (name_to_net_device_map platform !! name = None ->
   remove_resources_for name platform = (inr tt, platform)) /\
  (forall platform',
     remove_resources_for name platform = (inr tt, platform') ->
     name_to_net_device_map platform' !! name = None /\
     bridge_name platform' = bridge_name platform /\
     forall other, other <> name ->
       name_to_net_device_map platform' !! other
       = name_to_net_device_map platform !! other) /\
  (forall e platform',
     remove_resources_for name platform = (inl e, platform') ->
     name_to_net_device_map platform' = name_to_net_device_map platform /\
     exists tap_device_name hw_addr w,
       name_to_net_device_map platform !! name = Some (tap_device_name, hw_addr) /\
       release_mac hw_addr (world platform) = (inl e, w)).
Proof.
  unfold Qemu.remove_resources_for.
  destruct (name_to_net_device_map platform !! name) as [[tap hw]|] eqn:Hdevice.
  - split; [done|].
    destruct (release_mac hw (world platform)) as [[e|[]] w] eqn:Hrelease.
    + split; [done|]. intros e' platform' [= <- <-]. simpl.
      split; [done|]. by exists tap, hw, w.
    + split; [|done]. intros platform' [= <-]. simpl.
      split; [apply lookup_delete_eq|]. split; [done|].
      intros other Hother. by apply lookup_delete_ne.
  - split; [done|]. split; [|done]. intros platform' [= <-]. by eauto.
Qed.

(** X20. [vm_platform_args] records the device of an instance only when it
    holds none for it: a second call for the same instance keeps the tap
    device and the hardware address recorded first, while the arguments it
    returns name the address given.  The devices of other instances are
    kept, and removing the resources of a new instance afterwards, once its
    address is released, leaves the devices as they were before. *)
Theorem vm_platform_args_records vm_desc platform :
  let args := fst (vm_platform_args vm_desc platform) in
  let platform' := snd (vm_platform_args vm_desc platform) in
  let device := (generate_tap_device_name (vm_name vm_desc), default_mac_address vm_desc) in
  name_to_net_device_map platform' !! vm_name vm_desc
  = Some (match name_to_net_device_map platform !! vm_name vm_desc with
          | Some recorded => recorded
          | None => device
          end) /\
  (forall other, other <> vm_name vm_desc ->
     name_to_net_device_map platform' !! other = name_to_net_device_map platform !! other) /\
  last args = Some ("tap,ifname=" +:+ fst device
                    +:+ ",script=no,downscript=no,model=virtio-net-pci,mac=" +:+ snd device) /\
  (name_to_net_device_map platform !! vm_name vm_desc = None ->
   forall w platform'',
     release_mac (default_mac_address vm_desc) (world platform') = (inr tt, w) ->
     remove_resources_for (vm_name vm_desc) platform' = (inr tt, platform'') ->
     name_to_net_device_map platform'' = name_to_net_device_map platform).
Proof.
  intros args platform' device. subst args platform' device.
  unfold Qemu.vm_platform_args, emplace. simpl.
  destruct (name_to_net_device_map platform !! vm_name vm_desc) as [recorded|] eqn:Hdevice.
  - split; [done|]. split; [done|]. split; [done|]. done.
  - split; [apply lookup_insert_eq|].
    split; [intros other Hother; by apply lookup_insert_ne|]. split; [done|].
    intros _ w platform'' Hrelease. unfold Qemu.remove_resources_for. simpl.
    rewrite lookup_insert_eq, Hrelease. intros [= <-]. simpl.
    rewrite delete_insert_eq. by apply delete_id.
Qed.

End Platform.

End QemuFacts.
